(** * metisoft-database-util: a shallow embedding of the data-access layer

    The development follows the two source modules:

    - [databaseUtil.js]: the name converters and the LIKE-prefix condition
      generator, with the arrays the generator allocates and pushes to kept
      in an explicit store, so that aliasing with the caller's array is
      visible;
    - [DatabaseConnection.js]: the connection registry, the query executor,
      the result projections, the squel adapter, the basic service runner
      and the transaction primitives.  Promise chains are written in a small
      state monad whose state is the log of calls made to the collaborators
      (pool, client, console, injected callbacks). *)

From stdpp Require Import gmap strings list.
From Stdlib Require Import ZArith Ascii DecimalString.

#[local] Set Warnings "-register-all".

(** ** JavaScript values *)

Module JS.

(** The values that flow through the library opaquely: request objects,
    rows, query parameters.  Numbers are integers; objects are ordered
    property lists, in the enumeration order of their own keys. *)
Inductive Value : Type :=
| VUndefined
| VNull
| VBool (b : bool)
| VNum (n : Z)
| VStr (s : string)
| VArr (xs : list Value)
| VObj (fields : list (string * Value)).

(** [!v] is [negb (truthy v)]. *)
Definition truthy (v : Value) : bool :=
  match v with
  | VUndefined | VNull => false
  | VBool b => b
  | VNum n => negb (n =? 0)%Z
  | VStr s => negb (String.eqb s EmptyString)
  | VArr _ | VObj _ => true
  end.

(** [_.isString(v)] *)
Definition isString (v : Value) : bool :=
  match v with VStr _ => true | _ => false end.

(** Own-property lookup on a property list: the first binding of the key. *)
Fixpoint get_field (k : string) (fields : list (string * Value)) : option Value :=
  match fields with
  | [] => None
  | (k', v) :: rest => if String.eqb k k' then Some v else get_field k rest
  end.

(** [_.has(v, key)]: only objects carry own string-named properties here. *)
Definition has (v : Value) (k : string) : bool :=
  match v with
  | VObj fields => bool_decide (is_Some (get_field k fields))
  | _ => false
  end.

(** [v[key]] for a property that may be missing. *)
Definition prop (v : Value) (k : string) : Value :=
  match v with
  | VObj fields => default VUndefined (get_field k fields)
  | _ => VUndefined
  end.

(** [v.length], for the values that have one. *)
Definition length_of (v : Value) : Value :=
  match v with
  | VArr xs => VNum (Z.of_nat (List.length xs))
  | VStr s => VNum (Z.of_nat (String.length s))
  | VObj _ => prop v "length"
  | _ => VUndefined
  end.

(** [v > 0] for a number or a boolean operand; [undefined] and [null]
    compare as not greater.  Other operands do not occur as lengths of
    arrays or strings. *)
Definition gt_zero (v : Value) : bool :=
  match v with
  | VNum n => (0 <? n)%Z
  | VBool b => b
  | _ => false
  end.

(** [v[i]] *)
Definition index (v : Value) (i : nat) : Value :=
  match v with
  | VArr xs => default VUndefined (xs !! i)
  | VStr s => match String.get i s with
              | Some c => VStr (String c EmptyString)
              | None => VUndefined
              end
  | VObj _ => prop v (NilEmpty.string_of_uint (Nat.to_uint i))
  | _ => VUndefined
  end.

(** [s.slice(from)] and [s.slice(0, to)] for in-range, non-negative indices. *)
Fixpoint slice_from (from : nat) (s : string) {struct s} : string :=
  match from, s with
  | 0, _ => s
  | S n, String _ rest => slice_from n rest
  | S _, EmptyString => EmptyString
  end.

Fixpoint slice_to (to : nat) (s : string) {struct s} : string :=
  match to, s with
  | 0, _ => EmptyString
  | S n, String c rest => String c (slice_to n rest)
  | S _, EmptyString => EmptyString
  end.

Definition is_upper (c : ascii) : bool :=
  let n := nat_of_ascii c in ((65 <=? n) && (n <=? 90))%nat.

Definition is_digit (c : ascii) : bool :=
  let n := nat_of_ascii c in ((48 <=? n) && (n <=? 57))%nat.

(** [c.toLowerCase()] on a one-character string. *)
Definition toLowerCase (c : ascii) : ascii :=
  if is_upper c then ascii_of_nat (nat_of_ascii c + 32)%nat else c.

(** The double-quote character, as a string. *)
Definition dquote : string := String (ascii_of_nat 34) EmptyString.

(** Decimal rendering of an integer, as [String(n)] gives it. *)
Definition decimal (n : Z) : string :=
  NilEmpty.string_of_int (Z.to_int n).

(** The part of sprintf-js the library uses: the directives [%s], [%i]
    and [%%].  [None] stands for the exception sprintf-js raises on a
    malformed format, a missing argument or a non-numeric [%i]. *)
Fixpoint sprintf (fmt : string) (args : list Value) : option string :=
  match fmt with
  | EmptyString => Some EmptyString
  | String "%" (String "%" rest) =>
      out ← sprintf rest args; Some (String "%" out)
  | String "%" (String "s" rest) =>
      match args with
      | VStr s :: args' => out ← sprintf rest args'; Some (s +:+ out)
      | VNum n :: args' => out ← sprintf rest args'; Some (decimal n +:+ out)
      | _ => None
      end
  | String "%" (String "i" rest) =>
      match args with
      | VNum n :: args' => out ← sprintf rest args'; Some (decimal n +:+ out)
      | _ => None
      end
  | String "%" _ => None
  | String c rest => out ← sprintf rest args; Some (String c out)
  end.

Definition is_lower (c : ascii) : bool :=
  let n := nat_of_ascii c in ((97 <=? n) && (n <=? 122))%nat.

(** [c.toUpperCase()] on a one-character ASCII string. *)
Definition toUpperCase (c : ascii) : ascii :=
  if is_lower c then ascii_of_nat (nat_of_ascii c - 32)%nat else c.

(** [s.replace(/c/g, '')] for a single character [c]. *)
Fixpoint remove_char (c : ascii) (s : string) : string :=
  match s with
  | EmptyString => EmptyString
  | String c' rest =>
      if Ascii.eqb c' c then remove_char c rest else String c' (remove_char c rest)
  end.

End JS.

Export JS.

(** ** databaseUtil.js *)

Module databaseUtil.

(** *** Regular-expression cursors

    A global regex keeps a [lastIndex]; [exec] resumes the scan there and
    returns the index of the next match, or [null]. *)

Fixpoint find_from (p : ascii → bool) (lastIndex : nat) (s : string) : option nat :=
  match s with
  | EmptyString => None
  | String c rest =>
      match lastIndex with
      | 0 => if p c then Some 0 else S <$> find_from p 0 rest
      | S n => S <$> find_from p n rest
      end
  end.

(** Length of the run of characters satisfying [p] that starts at [i]. *)
Fixpoint run_length (p : ascii → bool) (i : nat) (s : string) : nat :=
  match s with
  | EmptyString => 0
  | String c rest =>
      match i with
      | 0 => if p c then S (run_length p 0 rest) else 0
      | S n => run_length p n rest
      end
  end.

(** [/[A-Z]/g.exec(name)]: the match index and the new [lastIndex]. *)
Definition exec_upperCase (name : string) (lastIndex : nat) : option (nat * nat) :=
  index ← find_from is_upper lastIndex name;
  Some (index, S index).

(** [/[0-9][0-9]*/g.exec(name)]: a whole run of digits is one match. *)
Definition exec_firstNumeral (name : string) (lastIndex : nat) : option (nat * nat) :=
  index ← find_from is_digit lastIndex name;
  Some (index, index + run_length is_digit index name).

(** The inner helper of [jsName2SqlName]; it updates the enclosing
    [name] and the regex's [lastIndex]. *)
Definition spliceInUnderscore (index : nat) (name : string) (lastIndex : nat)
  : string * nat :=
  if decide (index ≠ 0) then
    match String.get index name with
    | Some c =>
        let wordInitial := String (toLowerCase c) EmptyString in
        (slice_to index name +:+ "_" +:+ wordInitial +:+ slice_from (S index) name,
         S lastIndex)
    | None => (name, lastIndex)
    end
  else (name, lastIndex).

(** One [while ((match = regex.exec(name)) !== null)] loop.  The fuel
    bounds the iterations; [None] is fuel exhausted. *)
Fixpoint splice_loop (exec : string → nat → option (nat * nat))
    (fuel : nat) (name : string) (lastIndex : nat) : option string :=
  match fuel with
  | 0 => None
  | S fuel' =>
      match exec name lastIndex with
      | None => Some name
      | Some (index, lastIndex') =>
          let '(name', lastIndex'') := spliceInUnderscore index name lastIndex' in
          splice_loop exec fuel' name' lastIndex''
      end
  end.

Definition jsName2SqlName (name : string) : option string :=
  name ← splice_loop exec_upperCase (S (String.length name)) name 0;
  splice_loop exec_firstNumeral (S (String.length name)) name 0.

(** *** The store of arrays

    [genWhereLikePrefixConditions] receives an array by reference, clones
    it and pushes to the clone.  Arrays live in a store indexed by
    location; allocation appends a cell. *)

Abbreviation loc := nat (only parsing).
Abbreviation Store := (list (list Value)) (only parsing).

(** Store-passing computations; [None] is a dangling reference, a
    malformed format or exhausted fuel. *)
Definition H (A : Type) : Type := Store → option (A * Store).

Definition hret {A} (a : A) : H A := fun h => Some (a, h).

Definition hbind {A B} (m : H A) (k : A → H B) : H B :=
  fun h => match m h with
           | Some (a, h') => k a h'
           | None => None
           end.

Definition hlift {A} (o : option A) : H A :=
  fun h => match o with Some a => Some (a, h) | None => None end.

Notation "x ←ₕ m ; k" := (hbind m (fun x => k))
  (at level 100, m at next level, right associativity).
Notation "m ;;ₕ k" := (hbind m (fun _ => k))
  (at level 100, right associativity).

(** [[]] or any array literal: a fresh cell. *)
Definition alloc (xs : list Value) : H loc :=
  fun h => Some (List.length h, h ++ [xs]).

Definition read (l : loc) : H (list Value) :=
  fun h => match h !! l with Some xs => Some (xs, h) | None => None end.

(** [_.cloneDeep(a)] on an array of values. *)
Definition cloneDeep (l : loc) : H loc :=
  xs ←ₕ read l; alloc xs.

(** [a.length] *)
Definition array_length (l : loc) : H nat :=
  xs ←ₕ read l; hret (List.length xs).

(** [a.push(v)]: in place. *)
Definition push (l : loc) (v : Value) : H unit :=
  fun h => match h !! l with
           | Some xs => Some (tt, <[l := xs ++ [v]]> h)
           | None => None
           end.

(** [isLength(v)] of lodash: a number that can be the length of an
    array, up to [Number.MAX_SAFE_INTEGER]. *)
Definition isLength (v : Value) : bool :=
  match v with
  | VNum n => (0 <=? n)%Z && (n <=? 9007199254740991)%Z
  | _ => false
  end.

(** The visits of [_.forEach(obj, f)] to a plain object, as the keys and
    values the callback receives, in order.  lodash takes an object whose
    [length] is a valid array length for array-like: it walks the indices
    [0 .. length - 1], reads [obj[index]] ([undefined] where the object
    has no such property) and never visits the named keys.  The index
    reaches the callback as a number, given here by its decimal rendering.
    Any other object is walked over its own properties. *)
Definition visits (obj : list (string * Value)) : list (string * Value) :=
  match length_of (VObj obj) with
  | VNum n =>
      if isLength (VNum n)
      then (fun i => (decimal (Z.of_nat i), prop (VObj obj) (decimal (Z.of_nat i))))
             <$> seq 0 (Z.to_nat n)
      else obj
  | _ => obj
  end.

(** The calls of the callback, one per visit, with the variables the
    callback updates threaded as an accumulator. *)
Fixpoint each {S} (entries : list (string * Value))
    (f : Value → string → S → H S) (acc : S) : H S :=
  match entries with
  | [] => hret acc
  | (field, value) :: rest => acc' ←ₕ f value field acc; each rest f acc'
  end.

(** [_.forEach(obj, f)] on a plain object, for a callback that never
    returns [false]. *)
Definition forEach {S} (obj : list (string * Value))
    (f : Value → string → S → H S) (acc : S) : H S :=
  each (visits obj) f acc.

Record LikeConditions := {
  conditions : loc;
  args : loc
}.

Definition like_format : string :=
  dquote +:+ "%s" +:+ dquote +:+ " LIKE $%i || '%%'".

(** An index that [forEach] passes as [field] is a number: the regular
    expressions of [jsName2SqlName] scan its decimal rendering, which they
    leave as it is, and [%s] prints it as that rendering. *)
Definition genWhereLikePrefixConditions
    (criteria : list (string * Value)) (args : option loc) : H LikeConditions :=
  conditions ←ₕ alloc [];
  args ←ₕ match args with
          | None => alloc []
          | Some a => cloneDeep a
          end;
  argNumber ←ₕ array_length args;
  _ ←ₕ forEach criteria (fun value field argNumber =>
         if isString value then
           sqlField ←ₕ hlift (jsName2SqlName field);
           let argNumber := S argNumber in
           condStr ←ₕ hlift (sprintf like_format [VStr sqlField; VNum (Z.of_nat argNumber)]);
           push conditions (VStr condStr);;ₕ
           push args value;;ₕ
           hret argNumber
         else hret argNumber) argNumber;
  hret {| conditions := conditions; args := args |}.

(** *** The remaining converters *)

Definition is_underscore (c : ascii) : bool := Ascii.eqb c "_".

(** [/\_/g.exec(name)] *)
Definition exec_underscore (name : string) (lastIndex : nat) : option (nat * nat) :=
  index ← find_from is_underscore lastIndex name;
  Some (index, S index).

(** The loop of [sqlName2JsName].  [wordInitial] is declared outside the
    loop and keeps its value from one iteration to the next. *)
Fixpoint camel_loop (fuel : nat) (name : string) (lastIndex : nat)
    (wordInitial : string) : option string :=
  match fuel with
  | 0 => None
  | S fuel' =>
      match exec_underscore name lastIndex with
      | None => Some name
      | Some (underscoreIndex, lastIndex') =>
          let wordInitial :=
            if (underscoreIndex + 1 <? String.length name)%nat then
              match String.get (underscoreIndex + 1) name with
              | Some c => String (toUpperCase c) EmptyString
              | None => wordInitial
              end
            else wordInitial in
          let name :=
            slice_to underscoreIndex name +:+ wordInitial
            +:+ slice_from (underscoreIndex + 2) name in
          camel_loop fuel' name lastIndex' wordInitial
      end
  end.

Definition sqlName2JsName (name : string) : option string :=
  camel_loop (S (String.length name)) name 0 EmptyString.

Definition cleanStringForLike (str : Value) : string :=
  match str with
  | VStr str =>
      let str := remove_char "%" str in
      let str := remove_char "_" str in
      str
  | _ => EmptyString
  end.

(** [result[key] = v] on an object created as [{}], for a value [v]
    that is a string: an assignment to [__proto__] reaches the accessor of
    [Object.prototype], which ignores a string, and creates no property. *)
Definition assign_string {V} (key : string) (v : V) (result : gmap string V)
  : gmap string V :=
  if String.eqb key "__proto__" then result else <[key := v]> result.

(** [_.reduce(columnList, f, {})]; the object built is a map from column
    names to JavaScript names.  [None] is exhausted fuel. *)
Definition columnList2ColumnMap (columnList : list string) : option (gmap string string) :=
  foldl (fun result sqlName =>
           result ← result;
           jsName ← sqlName2JsName sqlName;
           Some (assign_string sqlName jsName result))
        (Some ∅) columnList.

(** [codeMap.hasOwnProperty(errorCode)]: the method is looked up on the
    code map itself, so an own property of that name, which is a value
    and not a function, makes the call raise a [TypeError]: [None]. *)
Definition codeMap_hasOwnProperty (codeMap : list (string * Value)) (errorCode : string)
  : option bool :=
  match get_field "hasOwnProperty" codeMap with
  | Some _ => None
  | None => Some (bool_decide (is_Some (get_field errorCode codeMap)))
  end.

(** [_.reduce(errorCodes, f, {})] over a code map that is a plain object;
    [None] is the [TypeError] of [codeMap_hasOwnProperty]. *)
Definition convertErrorCodes2Map (codeMap : list (string * Value))
    (errorCodes : list string) : option (gmap string Value) :=
  let msgMap :=
    foldl (fun result errorCode =>
             result ← result;
             own ← codeMap_hasOwnProperty codeMap errorCode;
             if own && isString (prop (VObj codeMap) errorCode)
             then Some (assign_string errorCode (prop (VObj codeMap) errorCode) result)
             else Some result)
          (Some ∅) errorCodes in
  msgMap.

End databaseUtil.

(** ** Promises and synchronous completions *)

Module Async.

(** A JavaScript [Error]: its message and, for validation failures, the
    [__errors] property the service runner attaches. *)
Record Error := {
  message : string;
  __errors : option (list string)
}.

Definition new_Error (msg : string) : Error :=
  {| message := msg; __errors := None |}.

(** How a synchronous call ends. *)
Inductive Completion (A : Type) : Type :=
| Normal (a : A)
| Throw (e : Error).
Arguments Normal {A} a.
Arguments Throw {A} e.

(** A promise, seen at the moment it settles. *)
Inductive Promise (A : Type) : Type :=
| Resolved (a : A)
| Rejected (e : Error).
Arguments Resolved {A} a.
Arguments Rejected {A} e.

(** Computations over a state [S]: the collaborators' call log and the
    variables a closure shares between its handlers. *)
Definition M (S A : Type) : Type := S → Completion A * S.

Definition ret {S A} (a : A) : M S A := fun s => (Normal a, s).

Definition throw {S A} (e : Error) : M S A := fun s => (Throw e, s).

Definition bind {S A B} (m : M S A) (k : A → M S B) : M S B :=
  fun s => match m s with
           | (Normal a, s') => k a s'
           | (Throw e, s') => (Throw e, s')
           end.

Notation "x ←ₘ m ; k" := (bind m (fun x => k))
  (at level 100, m at next level, right associativity).
Notation "m ;;ₘ k" := (bind m (fun _ => k))
  (at level 100, right associativity).

Definition when {S} (b : bool) (m : M S unit) : M S unit :=
  if b then m else ret tt.

(** A handler that returns a plain value resolves the chained promise. *)
Definition value {S A} (a : A) : M S (Promise A) := ret (Resolved a).

(** Runs a handler; what it throws rejects the chained promise. *)
Definition settle {S A} (m : M S (Promise A)) : M S (Promise A) :=
  fun s => match m s with
           | (Normal p, s') => (Normal p, s')
           | (Throw e, s') => (Normal (Rejected e), s')
           end.

(** [p.then(f)] *)
Definition then_ {S A B} (p : Promise A) (f : A → M S (Promise B)) : M S (Promise B) :=
  match p with
  | Resolved a => settle (f a)
  | Rejected e => ret (Rejected e)
  end.

(** [p.catch(f)] *)
Definition catch_ {S A} (p : Promise A) (f : Error → M S (Promise A)) : M S (Promise A) :=
  match p with
  | Resolved a => ret (Resolved a)
  | Rejected e => settle (f e)
  end.

(** [p.finally(f)]: the outcome of [p] passes through unless [f] throws. *)
Definition finally_ {S A} (p : Promise A) (f : M S unit) : M S (Promise A) :=
  settle (f ;;ₘ ret p).

(** [new Promise(executor)] for an executor that settles the promise
    before it returns, or throws. *)
Definition new_Promise {S A} (executor : M S (Promise A)) : M S (Promise A) :=
  settle executor.

(** *** Closure variables *)

Definition with_local {L S A} (init : L) (m : M (L * S) A) : M S A :=
  fun s => let '(r, s') := m (init, s) in (r, s'.2).

Definition get_local {L S} : M (L * S) L :=
  fun s => (Normal s.1, s).

Definition set_local {L S} (l : L) : M (L * S) unit :=
  fun s => (Normal tt, (l, s.2)).

End Async.

Export Async.

(** ** DatabaseConnection.js *)

Module DatabaseConnection.

(** *** Collaborators: the pool, its clients, the console *)

Abbreviation PoolId := nat (only parsing).
Abbreviation Client := nat (only parsing).

Inductive Event : Type :=
| PoolConnect (pool : PoolId)
| ClientQuery (client : Client) (queryString : string) (args : list Value)
| ClientRelease (client : Client)
| ConsoleLog (items : list Value)
| ConsoleError (label : string) (err : Error).

(** The log of calls made to the collaborators, oldest first. *)
Abbreviation World := (list Event) (only parsing).

(** What the driver does with [client.query(text, args, callback)]. *)
Inductive DriverReply : Type :=
| ReplyResult (result : Value)
| ReplyError (err : Error)
| RaisedInCall (err : Error).

(** A state that carries the call log, possibly under closure variables. *)
Class HasWorld (S : Type) := {
  world_of : S → World;
  with_world : World → S → S
}.

#[export] Instance world_self : HasWorld World :=
  {| world_of w := w; with_world w _ := w |}.

#[export] Instance world_under_local {L S} `{HasWorld S} : HasWorld (L * S) :=
  {| world_of s := world_of s.2; with_world w s := (s.1, with_world w s.2) |}.

Definition emit {S} `{HasWorld S} (e : Event) : M S unit :=
  fun s => (Normal tt, with_world (world_of s ++ [e]) s).

(** Runs a callback that only knows the call log. *)
Definition lift {S A} `{HasWorld S} (m : M World A) : M S A :=
  fun s => let '(r, w) := m (world_of s) in (r, with_world w s).

Definition console_log {S} `{HasWorld S} (items : list Value) : M S unit :=
  emit (ConsoleLog items).

Definition console_error {S} `{HasWorld S} (label : string) (err : Error) : M S unit :=
  emit (ConsoleError label err).

(** *** Configuration and connection objects *)

Record ConfigOptions := {
  verbose : bool
}.

Record ConnectionDetails := {
  host : string;
  port : Z;
  database : string;
  user : string;
  password : string;
  max : Z;
  idleTimeoutMillis : Z
}.

Record ConnectionConfig := {
  config : ConfigOptions;
  connection : ConnectionDetails
}.

(** A [DatabaseConnection] object. *)
Record Connection := {
  __name : string;
  __config : ConnectionConfig;
  __pool : option PoolId
}.

(** [new DatabaseConnection(name, config)] *)
Definition new_DatabaseConnection (name : string) (config : ConnectionConfig) : Connection :=
  {| __name := name; __config := config; __pool := None |}.

(** *** The registry

    [DatabaseConnection.__connections] is a plain object used as a map
    from names to entries.  The registry holds its own properties, the
    entry that an assignment to [__proto__] has installed as its
    prototype, if any, and the pools created so far; a pool is identified
    by its position in [pools].  [__startPool] first stores a bare
    [{pool: pool}] entry, which [getConnection] then replaces by the
    connection object. *)

Inductive Entry : Type :=
| PoolOnly (pool : PoolId)
| Registered (dbc : Connection).

Record Registry := {
  __connections : gmap string Entry;
  prototype : option Entry;
  pools : list ConnectionDetails
}.

Definition empty_registry : Registry :=
  {| __connections := ∅; prototype := None; pools := [] |}.

Section Registry.

(** The environment: [process.cwd()], Node's [path.join], which joins
    the segments with the separator of the platform and normalises the
    result, and [require(filename)] for configuration files, where [None]
    is a module that cannot be loaded. *)
Variable cwd : string.
Variable path_join : list string → string.
Variable require : string → option ConnectionConfig.

(** [sprintf(fmt, ...)] as a call that may raise. *)
Definition sprintf_js {S} (fmt : string) (args : list Value) : M S string :=
  match sprintf fmt args with
  | Some out => ret out
  | None => throw (new_Error "SyntaxError")
  end.

Definition __loadConnectionConfigFromFile (name mode : string)
  : M Registry ConnectionConfig :=
  file ←ₘ sprintf_js "%s.js" [VStr name];
  let filename :=
    if String.eqb mode "standalone"
    then path_join [cwd; "config"; file]
    else path_join [cwd; "node_modules"; "metisoft-databaseUtil"; "config"; file] in
  match require filename with
  | Some config => ret config
  | None =>
      let errStr := "Configuration file not found: %s" in
      msg ←ₘ sprintf_js errStr [VStr filename];
      throw (new_Error msg)
  end.

(** [new PgPool(connectionDetails)] *)
Definition new_PgPool (connectionDetails : ConnectionDetails) : M Registry PoolId :=
  fun r => (Normal (List.length (pools r)),
            {| __connections := __connections r;
               prototype := prototype r;
               pools := pools r ++ [connectionDetails] |}).

(** [DatabaseConnection.__connections[name] = e].  An entry is an
    object, so an assignment to [__proto__] installs it as the prototype
    of the registry and creates no own property. *)
Definition set_connection (name : string) (e : Entry) : M Registry unit :=
  fun r => (Normal tt,
            if String.eqb name "__proto__"
            then {| __connections := __connections r;
                    prototype := Some e;
                    pools := pools r |}
            else {| __connections := <[name := e]> (__connections r);
                    prototype := prototype r;
                    pools := pools r |}).

(** The method returns the updated [this]; the error listeners it
    installs on the pool only write to the console. *)
Definition __startPool (this : Connection) (name : string)
    (connectionDetails : ConnectionDetails) : M Registry Connection :=
  pool ←ₘ new_PgPool connectionDetails;
  let this := {| __name := __name this; __config := __config this;
                 __pool := Some pool |} in
  set_connection name (PoolOnly pool);;ₘ
  ret this.

(** [DatabaseConnection.__connections.hasOwnProperty(name)].  The
    method is looked up on the registry itself: an own property
    [hasOwnProperty] holds an entry, which is not a function, and the call
    raises a [TypeError].  An entry installed as the prototype has no
    property of that name, so the method is then still the one of
    [Object.prototype]. *)
Definition hasOwnProperty (name : string) : M Registry bool :=
  fun r => match __connections r !! "hasOwnProperty" with
           | Some _ => (Throw (new_Error "TypeError"), r)
           | None => (Normal (bool_decide (is_Some (__connections r !! name))), r)
           end.

(** [DatabaseConnection.__connections[name]], where it is an entry of
    the registry: an own property, or for [__proto__] the installed
    prototype.  [None] stands for any other value, [undefined] or a
    property inherited from the prototype chain. *)
Definition get_connection (name : string) : M Registry (option Entry) :=
  fun r => (Normal match __connections r !! name with
                   | Some e => Some e
                   | None => if String.eqb name "__proto__" then prototype r else None
                   end, r).

Definition getConnection (name : string) (mode : option string)
    (configOverride : option ConnectionConfig) : M Registry (option Entry) :=
  let mode := match mode with
              | Some m => if String.eqb m EmptyString then "asDependency" else m
              | None => "asDependency"
              end in
  known ←ₘ hasOwnProperty name;
  (if negb known then
     config ←ₘ match configOverride with
                | Some c => ret c
                | None => __loadConnectionConfigFromFile name mode
                end;
     let dbc := new_DatabaseConnection name config in
     dbc ←ₘ __startPool dbc name (connection config);
     set_connection name (Registered dbc)
   else ret tt);;ₘ
  get_connection name.

End Registry.

(** *** Querying *)

(** [{text, values}] as squel's [toParam()] returns it; either property
    may be missing. *)
Record SquelQuery := {
  text : option string;
  values : option (list Value)
}.

Definition nl : string := String (ascii_of_nat 10) EmptyString.

Section Executor.

(** The environment: what [pool.connect()] settles to and what the
    driver answers to a statement, both as functions of the calls made
    so far. *)
Variable pool_connect : PoolId → World → Promise Client.
Variable driver : Client → string → list Value → World → DriverReply.

(** [pool.connect()] *)
Definition connect {S} `{HasWorld S} (pool : PoolId) : M S (Promise Client) :=
  emit (PoolConnect pool);;ₘ
  fun s => (Normal (pool_connect pool (world_of s)), s).

(** [client.release()] *)
Definition release {S} `{HasWorld S} (client : Client) : M S unit :=
  emit (ClientRelease client).

Definition __makeClientQueryPromise {S} `{HasWorld S}
    (client : Client) (queryString : string) (args : list Value)
  : M S (Promise Value) :=
  new_Promise (
    emit (ClientQuery client queryString args);;ₘ
    fun s =>
      match driver client queryString args (world_of s) with
      | ReplyError err => (Normal (Rejected err), s)
      | ReplyResult result => (Normal (Resolved result), s)
      | RaisedInCall err => (Throw err, s)
      end).

(** The closure variable [client] is the local state of the chain. *)
Definition __DI_simpleQuery (__pool : PoolId) (__config : ConfigOptions)
    (queryString : string) (args : option (list Value))
  : M World (Promise Value) :=
  let debug := verbose __config || false in
  with_local (None : option Client) (
    p ←ₘ connect __pool;
    p ←ₘ then_ p (fun c =>
      set_local (Some c);;ₘ
      let client := c in
      when debug (console_log [VStr ("Executing query: " +:+ queryString)]);;ₘ
      args ←ₘ match args with
              | None => ret []
              | Some args =>
                  when debug (console_log [VStr ("With args:" +:+ nl); VArr args]);;ₘ
                  ret args
              end;
      __makeClientQueryPromise client queryString args);
    p ←ₘ then_ p (fun result =>
      client ←ₘ get_local;
      match client with
      | Some c => release c
      | None => throw (new_Error "TypeError")
      end;;ₘ
      set_local None;;ₘ
      when debug (console_log [VStr "Query returned:"];;ₘ console_log [result]);;ₘ
      value result);
    p ←ₘ catch_ p (fun err =>
      client ←ₘ get_local;
      match client with
      | Some c => release c;;ₘ set_local None
      | None => ret tt
      end;;ₘ
      when debug (console_error ("Error with query:" +:+ nl) err);;ₘ
      throw err);
    finally_ p (
      client ←ₘ get_local;
      match client with
      | Some c => release c
      | None => ret tt
      end)).

(** [this.__pool] is [null] until [__startPool] has run. *)
Definition __simpleQuery (this : Connection)
    (queryString : string) (args : option (list Value))
  : M World (Promise Value) :=
  match __pool this with
  | Some pool => __DI_simpleQuery pool (config (__config this)) queryString args
  | None => throw (new_Error "TypeError")
  end.

Definition __DI_queryWithClient (__config : ConfigOptions)
    (queryString : string) (args : option (list Value)) (client : Client)
  : M World (Promise Value) :=
  let debug := verbose __config in
  when debug (console_log [VStr ("Executing query: " +:+ queryString)]);;ₘ
  args ←ₘ match args with
          | None => ret []
          | Some args =>
              when debug (console_log [VStr ("With args:" +:+ nl); VArr args]);;ₘ
              ret args
          end;
  p ←ₘ __makeClientQueryPromise client queryString args;
  p ←ₘ then_ p (fun result =>
    when debug (console_log [VStr ("Query returned:" +:+ nl); result]);;ₘ
    value result);
  catch_ p (fun err =>
    when debug (console_error ("Error with query:" +:+ nl) err);;ₘ
    throw err).

Definition __queryWithClient (this : Connection)
    (queryString : string) (args : option (list Value)) (client : Client)
  : M World (Promise Value) :=
  __DI_queryWithClient (config (__config this)) queryString args client.

Definition __DI_query {S}
    (__fnQueryWithClient : string → option (list Value) → Client → M S (Promise Value))
    (__fnQueryWithoutClient : string → option (list Value) → M S (Promise Value))
    (queryString : string) (args : option (list Value)) (client : option Client)
  : M S (Promise Value) :=
  match client with
  | Some client => __fnQueryWithClient queryString args client
  | None => __fnQueryWithoutClient queryString args
  end.

Definition query (this : Connection)
    (queryString : string) (args : option (list Value)) (client : option Client)
  : M World (Promise Value) :=
  __DI_query (__queryWithClient this) (__simpleQuery this) queryString args client.

Definition __DI_getClient (__pool : PoolId) : M World (Promise Client) :=
  p ←ₘ connect __pool;
  then_ p (fun client => value client).

(** *** Result projection *)

Definition turnQueryResultIntoRows (queryResult : Value) : Value :=
  if has queryResult "rows" then prop queryResult "rows" else VArr [].

Definition turnRowsIntoSingleResult (rows : Value) : Value :=
  if truthy rows && gt_zero (length_of rows) then index rows 0 else VObj [].

Definition __DI_queryReturningMany {S}
    (__fnQuery : string → option (list Value) → option Client → M S (Promise Value))
    (queryString : string) (args : option (list Value)) (client : option Client)
  : M S (Promise Value) :=
  p ←ₘ __fnQuery queryString args client;
  then_ p (fun r => value (turnQueryResultIntoRows r)).

Definition queryReturningMany (this : Connection) :=
  __DI_queryReturningMany (query this).

Definition __DI_queryReturningOne {S}
    (__fnQuery : string → option (list Value) → option Client → M S (Promise Value))
    (queryString : string) (args : option (list Value)) (client : option Client)
  : M S (Promise Value) :=
  p ←ₘ __fnQuery queryString args client;
  p ←ₘ then_ p (fun r => value (turnQueryResultIntoRows r));
  then_ p (fun rows => value (turnRowsIntoSingleResult rows)).

Definition queryReturningOne (this : Connection) :=
  __DI_queryReturningOne (query this).

(** *** Squel-specific *)

Definition __DI_squelQuery {S}
    (__fnQuery : string → option (list Value) → option Client → M S (Promise Value))
    (q : SquelQuery) (client : option Client) : M S (Promise Value) :=
  let queryStr := text q in
  let args := values q in
  let args := match args with None => [] | Some args => args end in
  match queryStr with
  | None => value (VArr [])
  | Some queryStr =>
      if String.eqb queryStr EmptyString then value (VArr [])
      else __fnQuery queryStr (Some args) client
  end.

Definition squelQuery (this : Connection) (q : SquelQuery) (client : option Client)
  : M World (Promise Value) :=
  __DI_squelQuery (query this) q client.

Definition squelQueryReturningMany (this : Connection)
    (q : SquelQuery) (client : option Client) : M World (Promise Value) :=
  p ←ₘ squelQuery this q client;
  then_ p (fun r => value (turnQueryResultIntoRows r)).

Definition squelQueryReturningOne (this : Connection)
    (q : SquelQuery) (client : option Client) : M World (Promise Value) :=
  p ←ₘ squelQueryReturningMany this q client;
  then_ p (fun rows => value (turnRowsIntoSingleResult rows)).

(** *** Transactions *)

Definition beginTransaction (client : Client) : M World (Promise Value) :=
  __makeClientQueryPromise client "BEGIN" [].

Definition commitTransaction (client : Client) : M World (Promise Value) :=
  __makeClientQueryPromise client "COMMIT" [].

Definition rollbackTransaction (client : Client) : M World (Promise Value) :=
  p ←ₘ __makeClientQueryPromise client "ROLLBACK" [];
  catch_ p (fun err => release client;;ₘ value VUndefined).

End Executor.

(** *** The basic service runner *)

(** The invocations of injected functions that the runner makes, noted
    in a list the injected functions themselves cannot reach. *)
Inductive Call : Type :=
| CallValidate (req : Value) (errorCodes : list string)
| CallSanitizeRequest (req : Value)
| CallDbValidate (userData req : Value) (client : option Client)
| CallMakeQuery (userData req : Value)
| CallQueryOne (q : SquelQuery) (client : option Client)
| CallQueryMany (q : SquelQuery) (client : option Client).

Definition note (c : Call) : M (list Call * World) unit :=
  fun s => (Normal tt, (s.1 ++ [c], s.2)).

(** Invokes an injected function and notes the invocation. *)
Definition invoke {A} (c : Call) (m : M World A) : M (list Call * World) A :=
  note c;;ₘ lift m.

Record ConfigWithDone := {
  done_client : option Client
}.

Record runBasicServiceConfig := {
  userData : Value;
  req : Value;
  errorCodeMap : Value;
  (** The validator receives the array of error codes and leaves it
      changed: it returns its verdict with the array's new contents. *)
  fnValidate : Value → list string → M World (bool * list string);
  fnDbValidate : option (Value → Value → option Client → M World (Promise Value));
  fnSanitizeRequest : option (Value → M World Value);
  fnMakeQuery : Value → Value → M World SquelQuery;
  oneOrMany : Value;
  client : option Client;
  configWithDone : option ConfigWithDone
}.

(** [v === s] for a string literal [s]. *)
Definition is_string_literal (v : Value) (s : string) : bool :=
  match v with
  | VStr s' => String.eqb s' s
  | _ => false
  end.

Definition __DI_runBasicService (config : runBasicServiceConfig)
    (__fnSquelQueryReturningOne : SquelQuery → option Client → M World (Promise Value))
    (__fnSquelQueryReturningMany : SquelQuery → option Client → M World (Promise Value))
    (__fnConvertErrorCodes2Messages : option (Value → list string → Value))
  : M (list Call * World) (Promise Value) :=
  let errors : list string := [] in
  let userData := userData config in
  let req := req config in
  let fnDbValidate := fnDbValidate config in
  let fnSanitizeRequest := fnSanitizeRequest config in
  let oneOrMany := oneOrMany config in
  let client :=
    match client config with
    | Some c => Some c
    | None =>
        match configWithDone config with
        | Some cwd => done_client cwd
        | None => None
        end
    end in
  let fnQuery :=
    if is_string_literal oneOrMany "one" then
      Some (fun q client => invoke (CallQueryOne q client) (__fnSquelQueryReturningOne q client))
    else if is_string_literal oneOrMany "many" then
      Some (fun q client => invoke (CallQueryMany q client) (__fnSquelQueryReturningMany q client))
    else None in
  let fnDbValidate :=
    match fnDbValidate with
    | Some f => fun userData req client =>
                  invoke (CallDbValidate userData req client) (f userData req client)
    | None => fun _ _ _ => value (VObj [])
    end in
  match fnQuery with
  | None =>
      p ←ₘ value (VObj []);
      then_ p (fun _ => throw (new_Error "SERVER_REQUEST_ERROR"))
  | Some fnQuery =>
      verdict ←ₘ invoke (CallValidate req errors) (fnValidate config req errors);
      let '(ok, errors) := verdict in
      if (ok : bool) then
        req ←ₘ match fnSanitizeRequest with
               | Some f => invoke (CallSanitizeRequest req) (f req)
               | None => ret req
               end;
        p ←ₘ fnDbValidate userData req client;
        then_ p (fun _ =>
          q ←ₘ invoke (CallMakeQuery userData req) (fnMakeQuery config userData req);
          fnQuery q client)
      else
        p ←ₘ value (VObj []);
        then_ p (fun _ =>
          let err := {| message := "VALIDATION_ERROR"; __errors := Some errors |} in
          throw err)
  end.

(** [dbu.convertErrorCodes2Messages] is not a member of the exported
    module, so the public entry point passes [undefined] there. *)
Definition runBasicService
    (pool_connect : PoolId → World → Promise Client)
    (driver : Client → string → list Value → World → DriverReply)
    (this : Connection) (config : runBasicServiceConfig)
  : M World (Promise Value) :=
  with_local [] (
    __DI_runBasicService config
      (squelQueryReturningOne pool_connect driver this)
      (squelQueryReturningMany pool_connect driver this)
      None).

(** [getClient()]: the method reads [this.__pool]; the connection
    details it also passes on are not used. *)
Definition getClient
    (pool_connect : PoolId → World → Promise Client)
    (this : Connection) : M World (Promise Client) :=
  match __pool this with
  | Some pool => __DI_getClient pool_connect pool
  | None => throw (new_Error "TypeError")
  end.

End DatabaseConnection.

(** * Vocabulary of the statements *)

Import databaseUtil DatabaseConnection.

(** An [exec] moves its cursor forward and keeps it inside the string. *)
Definition advances (exec : string → nat → option (nat * nat)) : Prop :=
  ∀ name lastIndex i lastIndex',
    exec name lastIndex = Some (i, lastIndex') →
    lastIndex ≤ i ∧ i < lastIndex' ∧ lastIndex' ≤ String.length name.

(** The entries of a criteria object whose value is a string, in order. *)
Definition string_entries (criteria : list (string * Value)) : list (string * Value) :=
  List.filter (fun entry => isString entry.2) criteria.

(** A criteria object that [forEach] walks by index: its [length] is a
    valid array length. *)
Definition array_like (criteria : list (string * Value)) : bool :=
  isLength (length_of (VObj criteria)).

(** The text of one LIKE-prefix condition. *)
Definition condition_text (sqlField : string) (argNumber : nat) : string :=
  dquote +:+ sqlField +:+ dquote +:+ " LIKE $" +:+ decimal (Z.of_nat argNumber) +:+ " || '%'".

(** The caller's array, if one was passed, is live in the store. *)
Definition args_live (args : option loc) (h : Store) (xs : list Value) : Prop :=
  match args with
  | Some a => h !! a = Some xs
  | None => xs = []
  end.

(** The callback that [genWhereLikePrefixConditions] passes to [forEach],
    closed over the two arrays it pushes to. *)
Definition like_callback (conditions args : loc) (value : Value) (field : string)
    (argNumber : nat) : H nat :=
  if isString value then
    sqlField ←ₕ hlift (jsName2SqlName field);
    let argNumber := S argNumber in
    condStr ←ₕ hlift (sprintf like_format [VStr sqlField; VNum (Z.of_nat argNumber)]);
    push conditions (VStr condStr);;ₕ
    push args value;;ₕ
    hret argNumber
  else hret argNumber.

(** Console output is a side channel; the other events are calls to the
    pool and to clients. *)
Definition is_console (e : Event) : bool :=
  match e with
  | ConsoleLog _ | ConsoleError _ _ => true
  | _ => false
  end.

Definition calls_of (w : World) : World :=
  List.filter (fun e => negb (is_console e)) w.

Definition is_release (c : Client) (e : Event) : bool :=
  match e with
  | ClientRelease c' => Nat.eqb c c'
  | _ => false
  end.

(** How many times [release] was called on a client. *)
Definition releases_of (c : Client) (w : World) : nat :=
  List.length (List.filter (is_release c) w).

Definition is_connect (e : Event) : bool :=
  match e with
  | PoolConnect _ => true
  | _ => false
  end.

(** How many clients were asked from a pool. *)
Definition acquisitions (w : World) : nat :=
  List.length (List.filter is_connect w).

(** The promise a driver reply turns into. *)
Definition settles_as (reply : DriverReply) : Promise Value :=
  match reply with
  | ReplyResult result => Resolved result
  | ReplyError err | RaisedInCall err => Rejected err
  end.

(** The statement failed: the driver reported an error or raised one. *)
Definition statement_fails (reply : DriverReply) : Prop :=
  match reply with
  | ReplyResult _ => False
  | ReplyError _ | RaisedInCall _ => True
  end.

(** [!q.text] *)
Definition text_is_empty (q : SquelQuery) : Prop :=
  text q = None ∨ text q = Some EmptyString.

(** A query function that notes each of its invocations, with the
    arguments it received, where the wrapped function cannot reach. *)
Definition counted
    (fnQuery : string → option (list Value) → option Client → M World (Promise Value))
    (queryString : string) (args : option (list Value)) (client : option Client)
  : M (list (string * option (list Value) * option Client) * World) (Promise Value) :=
  fun s => let '(r, w) := fnQuery queryString args client s.2 in
           (r, (s.1 ++ [(queryString, args, client)], w)).

(** *** Sample environments *)

Definition sample_rows : Value :=
  VObj [("rows", VArr [VObj [("id", VNum 1)]; VObj [("id", VNum 2)]])].

(** A driver that answers every statement with [sample_rows]. *)
Definition answering_driver : Client → string → list Value → World → DriverReply :=
  fun _ _ _ _ => ReplyResult sample_rows.

(** A driver on which [ROLLBACK] fails and every other statement succeeds. *)
Definition rollback_failing_driver : Client → string → list Value → World → DriverReply :=
  fun _ queryString _ _ =>
    if String.eqb queryString "ROLLBACK"
    then ReplyError (new_Error "connection terminated")
    else ReplyResult sample_rows.

(** A driver that reports a syntax error for every statement. *)
Definition rejecting_driver : Client → string → list Value → World → DriverReply :=
  fun _ _ _ _ => ReplyError (new_Error "syntax error").

(** A pool that leases client 7. *)
Definition sample_pool : PoolId → World → Promise Client :=
  fun _ _ => Resolved 7.

Definition sample_details : ConnectionDetails :=
  {| host := "localhost"; port := 5432; database := "devtest"; user := "dev";
     password := "secret"; max := 10; idleTimeoutMillis := 30000 |}.

Definition sample_config : ConnectionConfig :=
  {| config := {| verbose := false |}; connection := sample_details |}.

Definition verbose_config : ConnectionConfig :=
  {| config := {| verbose := true |}; connection := sample_details |}.

Definition sample_connection : Connection :=
  {| __name := "main"; __config := sample_config; __pool := Some 0 |}.

Definition verbose_connection : Connection :=
  {| __name := "main"; __config := verbose_config; __pool := Some 0 |}.

(** What the managed query writes to the log up to and including the
    statement, and after the release. *)
Definition log_before_release (pool : PoolId) (c : Client) (debug : bool)
    (queryString : string) (args : option (list Value)) : World :=
  [PoolConnect pool]
  ++ (if debug then [ConsoleLog [VStr ("Executing query: " +:+ queryString)]] else [])
  ++ match args with
     | Some a => if debug then [ConsoleLog [VStr ("With args:" +:+ nl); VArr a]] else []
     | None => []
     end
  ++ [ClientQuery c queryString (default [] args)].

Definition log_after_release (debug : bool) (reply : DriverReply) : World :=
  if debug then
    match reply with
    | ReplyResult result => [ConsoleLog [VStr "Query returned:"]; ConsoleLog [result]]
    | ReplyError err | RaisedInCall err => [ConsoleError ("Error with query:" +:+ nl) err]
    end
  else [].

(** *** The registry *)

(** [mode], with the default the code substitutes for a missing one. *)
Definition effective_mode (mode : option string) : string :=
  match mode with
  | Some m => if String.eqb m EmptyString then "asDependency" else m
  | None => "asDependency"
  end.

(** The configuration file that [mode] selects for a connection name. *)
Definition config_filename (cwd : string) (path_join : list string → string)
    (name mode : string) : string :=
  if String.eqb mode "standalone"
  then path_join [cwd; "config"; name +:+ ".js"]
  else path_join [cwd; "node_modules"; "metisoft-databaseUtil"; "config"; name +:+ ".js"].

(** The configuration a first lookup resolves: the override if one is
    given, else the file selected by the mode. *)
Definition resolve_config (cwd : string) (path_join : list string → string)
    (require : string → option ConnectionConfig)
    (name : string) (mode : option string) (configOverride : option ConnectionConfig)
  : option ConnectionConfig :=
  match configOverride with
  | Some c => Some c
  | None => require (config_filename cwd path_join name (effective_mode mode))
  end.

(** One call of [getConnection]. *)
Record Lookup := {
  lookup_name : string;
  lookup_mode : option string;
  lookup_override : option ConnectionConfig
}.

(** The registry after a sequence of lookups, whether they return or throw. *)
Fixpoint run_lookups (cwd : string) (path_join : list string → string)
    (require : string → option ConnectionConfig)
    (calls : list Lookup) (r : Registry) : Registry :=
  match calls with
  | [] => r
  | c :: rest =>
      run_lookups cwd path_join require rest
        (getConnection cwd path_join require
           (lookup_name c) (lookup_mode c) (lookup_override c) r).2
  end.

(** The registry has no own property that shadows the method
    [hasOwnProperty]. *)
Definition method_intact (r : Registry) : Prop :=
  __connections r !! "hasOwnProperty" = None.

(** A name that the registry object can hold like a map: neither
    [__proto__] nor [hasOwnProperty]. *)
Definition ordinary_name (name : string) : Prop :=
  name ≠ "__proto__" ∧ name ≠ "hasOwnProperty".

(** A [path.join] that joins with [/]; it is Node's on a POSIX platform
    for segments that need no normalisation, as those of the samples. *)
Fixpoint sample_path_join (segments : list string) : string :=
  match segments with
  | [] => "."
  | [s] => s
  | s :: rest => s +:+ "/" +:+ sample_path_join rest
  end.

(** A file system with one configuration file, for connection [main]
    looked up as a dependency. *)
Definition sample_require (filename : string) : option ConnectionConfig :=
  if String.eqb filename "/srv/app/node_modules/metisoft-databaseUtil/config/main.js"
  then Some sample_config
  else None.

(** The registry after [main] has been looked up once. *)
Definition sample_registry : Registry :=
  {| __connections := {[ "main" := Registered sample_connection ]};
     prototype := None;
     pools := [sample_details] |}.

(** *** The service runner *)

(** How many of the noted invocations satisfy [p]. *)
Definition invocations (p : Call → bool) (calls : list Call) : nat :=
  List.length (List.filter p calls).

Definition is_make_query (c : Call) : bool :=
  match c with CallMakeQuery _ _ => true | _ => false end.

Definition is_query_one (c : Call) : bool :=
  match c with CallQueryOne _ _ => true | _ => false end.

Definition is_query_many (c : Call) : bool :=
  match c with CallQueryMany _ _ => true | _ => false end.

(** [oneOrMany] is one of the two recognised modes. *)
Definition mode_recognised (config : runBasicServiceConfig) : bool :=
  is_string_literal (oneOrMany config) "one"
  || is_string_literal (oneOrMany config) "many".




(** The client the runner passes on. *)
Definition service_client (config : runBasicServiceConfig) : option Client :=
  match client config with
  | Some c => Some c
  | None =>
      match configWithDone config with
      | Some cwd => done_client cwd
      | None => None
      end
  end.

(** The steps before execution all complete: validation passes,
    sanitization returns, database validation resolves and the query is
    built.  The result is the query and the world in which execution
    starts. *)
Definition reaches_execution (config : runBasicServiceConfig) (w : World)
  : option (SquelQuery * World) :=
  match fnValidate config (req config) [] w with
  | (Normal (true, _), w1) =>
      match match fnSanitizeRequest config with
            | Some f => f (req config) w1
            | None => (Normal (req config), w1)
            end with
      | (Normal req', w2) =>
          match match fnDbValidate config with
                | Some f => f (userData config) req' (service_client config) w2
                | None => (Normal (Resolved (VObj [])), w2)
                end with
          | (Normal (Resolved _), w3) =>
              match fnMakeQuery config (userData config) req' w3 with
              | (Normal q, w4) => Some (q, w4)
              | (Throw _, _) => None
              end
          | _ => None
          end
      | (Throw _, _) => None
      end
  | _ => None
  end.

Definition count_if_reached (config : runBasicServiceConfig) (w : World) : nat :=
  match reaches_execution config w with
  | Some _ => 1
  | None => 0
  end.

(** The mode selects the execution function, which runs exactly once. *)
Definition executes_exactly_once (config : runBasicServiceConfig)
    (fnOne fnMany : SquelQuery → option Client → M World (Promise Value))
    (fnConvert : option (Value → list string → Value)) (w : World) : Prop :=
  let '(r, (calls, w')) := __DI_runBasicService config fnOne fnMany fnConvert ([], w) in
  (oneOrMany config = VStr "one" →
     invocations is_query_one calls = 1 ∧ invocations is_query_many calls = 0)
  ∧ (oneOrMany config = VStr "many" →
       invocations is_query_many calls = 1 ∧ invocations is_query_one calls = 0)
  ∧ (mode_recognised config = false →
       r = Normal (Rejected (new_Error "SERVER_REQUEST_ERROR"))
       ∧ calls = [] ∧ w' = w).

(** *** Sample services *)

Definition select_by_id : SquelQuery :=
  {| text := Some "SELECT * FROM crm WHERE id = $1"; values := Some [VNum 123] |}.

(** The validator of the unit tests: it fails on [retVal: false]. *)
Definition sample_validate (req : Value) (errorCodes : list string)
  : M World (bool * list string) :=
  match prop req "retVal" with
  | VBool false => ret (false, errorCodes ++ ["INVALID_ID"])
  | _ => ret (true, errorCodes)
  end.

Definition sample_service (retVal : bool) (mode : string) : runBasicServiceConfig :=
  {| userData := VObj [("userId", VNum 47)];
     req := VObj [("id", VNum 123); ("retVal", VBool retVal)];
     errorCodeMap := VObj [("INVALID_ID", VStr "Invalid ID.")];
     fnValidate := sample_validate;
     fnDbValidate := None;
     fnSanitizeRequest := None;
     fnMakeQuery := fun _ _ => ret select_by_id;
     oneOrMany := VStr mode;
     client := None;
     configWithDone := None |}.

Definition resolve_true : SquelQuery → option Client → M World (Promise Value) :=
  fun _ _ => value (VBool true).

(** *** Name conversion, as single passes over the name *)

(** Every character of the string satisfies [p]. *)
Fixpoint all_chars (p : ascii → bool) (s : string) : bool :=
  match s with
  | EmptyString => true
  | String c rest => p c && all_chars p rest
  end.

(** The string is empty or starts with a character that fails [p]. *)
Definition head_not (p : ascii → bool) (s : string) : bool :=
  match s with
  | EmptyString => true
  | String c _ => negb (p c)
  end.

Definition is_empty (s : string) : bool :=
  match s with
  | EmptyString => true
  | String _ _ => false
  end.

(** An underscore before every uppercase letter, which is lowercased,
    except when [first] says the letter starts the name. *)
Fixpoint snake_upper (first : bool) (s : string) : string :=
  match s with
  | EmptyString => EmptyString
  | String c rest =>
      if is_upper c && negb first
      then String "_" (String (toLowerCase c) (snake_upper false rest))
      else String c (snake_upper false rest)
  end.

(** An underscore before every run of digits; [inside] says that the
    position starts the name or continues a run. *)
Fixpoint snake_digits (inside : bool) (s : string) : string :=
  match s with
  | EmptyString => EmptyString
  | String c rest =>
      if is_digit c
      then if inside
           then String c (snake_digits true rest)
           else String "_" (String c (snake_digits true rest))
      else String c (snake_digits false rest)
  end.

(** Each underscore is dropped and the character after it uppercased
    and kept as the word initial; that character is not looked at again.
    An underscore that ends the name is replaced by the last word initial. *)
Fixpoint camel (wordInitial : string) (s : string) : string :=
  match s with
  | EmptyString => EmptyString
  | String c rest =>
      if is_underscore c then
        match rest with
        | String d rest' =>
            String (toUpperCase d) (camel (String (toUpperCase d) EmptyString) rest')
        | EmptyString => wordInitial
        end
      else String c (camel wordInitial rest)
  end.

Definition not_underscore (c : ascii) : bool := negb (is_underscore c).

(** A character of the ASCII range, where [toUpperCase] only changes
    the letters [a] to [z]. *)
Definition is_ascii (c : ascii) : bool := (nat_of_ascii c <? 128)%nat.

(** The one property name whose assignment does not create a property
    of a plain object. *)
Definition proto_name : string := "__proto__".

Definition not_like_wildcard (c : ascii) : bool :=
  negb (Ascii.eqb c "%") && negb (Ascii.eqb c "_").

(** The characters of a string that satisfy [p], in order. *)
Fixpoint keep_chars (p : ascii → bool) (s : string) : string :=
  match s with
  | EmptyString => EmptyString
  | String c rest => if p c then String c (keep_chars p rest) else keep_chars p rest
  end.

(** The message a code map holds for a code, when it is a string. *)
Definition message_of (codeMap : list (string * Value)) (errorCode : string)
  : option Value :=
  match get_field errorCode codeMap with
  | Some (VStr msg) => Some (VStr msg)
  | _ => None
  end.

(** *** The client-scoped path *)

(** What a client-scoped query writes to the log before the statement
    and after it. *)
Definition log_before_statement (debug : bool) (queryString : string)
    (args : option (list Value)) : World :=
  (if debug then [ConsoleLog [VStr ("Executing query: " +:+ queryString)]] else [])
  ++ match args with
     | Some a => if debug then [ConsoleLog [VStr ("With args:" +:+ nl); VArr a]] else []
     | None => []
     end.

Definition log_after_statement (debug : bool) (reply : DriverReply) : World :=
  if debug then
    match reply with
    | ReplyResult result => [ConsoleLog [VStr ("Query returned:" +:+ nl); result]]
    | ReplyError err | RaisedInCall err => [ConsoleError ("Error with query:" +:+ nl) err]
    end
  else [].

(** Statements a caller runs one after the other on a client it holds;
    the result is the log they leave. *)
Fixpoint run_on_client
    (pool_connect : PoolId → World → Promise Client)
    (driver : Client → string → list Value → World → DriverReply)
    (this : Connection) (c : Client)
    (statements : list (string * option (list Value))) (w : World) : World :=
  match statements with
  | [] => w
  | (queryString, args) :: rest =>
      run_on_client pool_connect driver this c rest
        (query pool_connect driver this queryString args (Some c) w).2
  end.

(** The statement a client-scoped query sends to the driver. *)
Definition statement_event (c : Client) (statement : string * option (list Value)) : Event :=
  ClientQuery c statement.1 (default [] statement.2).

(** The environment does not look at console output. *)
Definition pool_ignores_console (pool_connect : PoolId → World → Promise Client) : Prop :=
  ∀ (pool : PoolId) (w : World), pool_connect pool w = pool_connect pool (calls_of w).

Definition driver_ignores_console
    (driver : Client → string → list Value → World → DriverReply) : Prop :=
  ∀ (c : Client) (queryString : string) (args : list Value) (w : World),
    driver c queryString args w = driver c queryString args (calls_of w).

(** *** Steps of the service runner *)

(** Sanitization, when a sanitizer is supplied. *)
Definition sanitize_step (config : runBasicServiceConfig) (w : World)
  : Completion Value * World :=
  match fnSanitizeRequest config with
  | Some f => f (req config) w
  | None => (Normal (req config), w)
  end.

(** Database validation, or the substitute that resolves at once. *)
Definition db_validate_step (config : runBasicServiceConfig) (req' : Value) (w : World)
  : Completion (Promise Value) * World :=
  match fnDbValidate config with
  | Some f => f (userData config) req' (service_client config) w
  | None => (Normal (Resolved (VObj [])), w)
  end.

(** The invocations made up to and including database validation. *)
Definition calls_before_query (config : runBasicServiceConfig) (req' : Value) : list Call :=
  [CallValidate (req config) []]
  ++ match fnSanitizeRequest config with
     | Some _ => [CallSanitizeRequest (req config)]
     | None => []
     end
  ++ match fnDbValidate config with
     | Some _ => [CallDbValidate (userData config) req' (service_client config)]
     | None => []
     end.

(** A service with a sanitizer and a database validation. *)
Definition full_service (mode : string) (dbOutcome : Promise Value) : runBasicServiceConfig :=
  {| userData := VObj [("userId", VNum 47)];
     req := VObj [("id", VNum 123); ("extra", VStr "x")];
     errorCodeMap := VObj [];
     fnValidate := fun _ errorCodes => ret (true, errorCodes);
     fnDbValidate := Some (fun _ _ _ => ret dbOutcome);
     fnSanitizeRequest := Some (fun _ => ret (VObj [("id", VNum 123)]));
     fnMakeQuery := fun _ _ => ret select_by_id;
     oneOrMany := VStr mode;
     client := Some 7;
     configWithDone := Some {| done_client := Some 9 |} |}.

(** A service whose validator, or else whose query builder, raises. *)
Definition throwing_service (inValidator : bool) : runBasicServiceConfig :=
  {| userData := VNull;
     req := VUndefined;
     errorCodeMap := VObj [];
     fnValidate := fun _ errorCodes =>
       if inValidator then throw (new_Error "req is undefined") else ret (true, errorCodes);
     fnDbValidate := None;
     fnSanitizeRequest := None;
     fnMakeQuery := fun _ _ => throw (new_Error "req is undefined");
     oneOrMany := VStr "one";
     client := None;
     configWithDone := None |}.

(** *** Registry invariants *)

Definition entry_pool (e : Entry) : option PoolId :=
  match e with
  | PoolOnly pool => Some pool
  | Registered dbc => __pool dbc
  end.

(** Every entry is a connection object registered under its own name,
    whose pool exists and was created from its connection details. *)
Definition registry_sound (r : Registry) : Prop :=
  ∀ (name : string) (e : Entry),
    __connections r !! name = Some e →
    ∃ (dbc : Connection) (i : PoolId),
      e = Registered dbc ∧ __name dbc = name ∧ __pool dbc = Some i
      ∧ pools r !! i = Some (connection (__config dbc)).

(** Entries that hold the same pool are registered under the same name. *)
Definition pools_apart (r : Registry) : Prop :=
  ∀ (name1 name2 : string) (e1 e2 : Entry) (i : PoolId),
    __connections r !! name1 = Some e1 →
    __connections r !! name2 = Some e2 →
    entry_pool e1 = Some i → entry_pool e2 = Some i →
    name1 = name2.

(** * Properties *)

(** Case analysis on the driver's reply, wherever the goal consults it. *)
Ltac case_driver_reply driver :=
  try match goal with
      | |- context [driver ?a ?b ?x ?y] => destruct (driver a b x y)
      end.

(** Case analysis on an innermost scrutinee of the goal. *)
Ltac case_innermost :=
  match goal with
  | |- context [match ?x with _ => _ end] =>
      lazymatch x with
      | context [match _ with _ => _ end] => fail
      | _ => destruct x
      end
  end.

(** ** Name conversion terminates *)

Lemma length_append (a b : string) :
  String.length (a +:+ b) = String.length a + String.length b.
Proof. induction a as [|c a IH]; simpl; [done | by rewrite IH]. Qed.

Lemma length_slice_to (i : nat) (s : string) :
  i ≤ String.length s → String.length (slice_to i s) = i.
Proof.
  revert i. induction s as [|c s IH]; intros [|i] Hi; simpl in *; try lia.
  rewrite IH; lia.
Qed.

Lemma length_slice_from (i : nat) (s : string) :
  String.length (slice_from i s) = String.length s - i.
Proof.
  revert i. induction s as [|c s IH]; intros [|i]; simpl; try done.
Qed.

Lemma get_Some_lt (i : nat) (s : string) (c : ascii) :
  String.get i s = Some c → i < String.length s.
Proof.
  revert i. induction s as [|c' s IH]; intros [|i] Hg; simpl in *; try done; try lia.
  apply IH in Hg. lia.
Qed.

Lemma find_from_bounds (p : ascii → bool) (s : string) (lastIndex i : nat) :
  find_from p lastIndex s = Some i → lastIndex ≤ i < String.length s.
Proof.
  revert lastIndex i. induction s as [|c s IH]; intros li i Hf; simpl in *; [done|].
  destruct li as [|li].
  - destruct (p c).
    + inversion Hf; subst. lia.
    + destruct (find_from p 0 s) as [j|] eqn:Ej; simpl in Hf; [|done].
      inversion Hf; subst. apply IH in Ej. lia.
  - destruct (find_from p li s) as [j|] eqn:Ej; simpl in Hf; [|done].
    inversion Hf; subst. apply IH in Ej. lia.
Qed.

Lemma find_from_run (p : ascii → bool) (s : string) (lastIndex i : nat) :
  find_from p lastIndex s = Some i →
  1 ≤ run_length p i s ∧ i + run_length p i s ≤ String.length s.
Proof.
  assert (Hrun : ∀ t, run_length p 0 t ≤ String.length t).
  { induction t as [|c t IH]; simpl; [lia|]. destruct (p c); lia. }
  revert lastIndex i. induction s as [|c s IH]; intros li i Hf; simpl in *; [done|].
  destruct li as [|li].
  - destruct (p c) eqn:Ep.
    + inversion Hf; subst. simpl. try rewrite Ep. specialize (Hrun s). lia.
    + destruct (find_from p 0 s) as [j|] eqn:Ej; simpl in Hf; [|done].
      inversion Hf; subst. apply IH in Ej. lia.
  - destruct (find_from p li s) as [j|] eqn:Ej; simpl in Hf; [|done].
    inversion Hf; subst. apply IH in Ej. lia.
Qed.

Lemma exec_upperCase_advances : advances exec_upperCase.
Proof.
  intros name li i li' He. unfold exec_upperCase in He.
  destruct (find_from is_upper li name) as [j|] eqn:Ej; simpl in He; [|done].
  inversion He; subst. apply find_from_bounds in Ej. lia.
Qed.

Lemma exec_firstNumeral_advances : advances exec_firstNumeral.
Proof.
  intros name li i li' He. unfold exec_firstNumeral in He.
  destruct (find_from is_digit li name) as [j|] eqn:Ej; simpl in He; [|done].
  inversion He; subst.
  pose proof (find_from_bounds _ _ _ _ Ej). pose proof (find_from_run _ _ _ _ Ej). lia.
Qed.

Lemma spliceInUnderscore_measure (i : nat) (name : string) (lastIndex : nat)
    (name' : string) (lastIndex' : nat) :
  spliceInUnderscore i name lastIndex = (name', lastIndex') →
  lastIndex ≤ String.length name →
  String.length name' - lastIndex' = String.length name - lastIndex.
Proof.
  unfold spliceInUnderscore. intros Hs Hle.
  destruct (decide (i ≠ 0)); [|by inversion Hs].
  destruct (String.get i name) as [c|] eqn:Eg; [|by inversion Hs].
  injection Hs as <- <-. apply get_Some_lt in Eg.
  rewrite !length_append, length_slice_to, length_slice_from by lia. simpl. lia.
Qed.

Lemma splice_loop_total (exec : string → nat → option (nat * nat)) :
  advances exec →
  ∀ fuel name lastIndex,
    String.length name - lastIndex < fuel →
    is_Some (splice_loop exec fuel name lastIndex).
Proof.
  intros Hadv. induction fuel as [|fuel IH]; intros name li Hm; [lia|].
  simpl. destruct (exec name li) as [[i li']|] eqn:He; [|by eexists].
  apply Hadv in He as (H1 & H2 & H3).
  destruct (spliceInUnderscore i name li') as [name' li''] eqn:Es.
  apply IH. apply spliceInUnderscore_measure in Es; lia.
Qed.

Lemma jsName2SqlName_total (name : string) : is_Some (jsName2SqlName name).
Proof.
  unfold jsName2SqlName.
  destruct (splice_loop_total _ exec_upperCase_advances (S (String.length name)) name 0)
    as [name1 H1]; [lia|].
  rewrite H1. change (is_Some (splice_loop exec_firstNumeral (S (String.length name1)) name1 0)).
  apply (splice_loop_total _ exec_firstNumeral_advances); lia.
Qed.

(** ** The LIKE-prefix condition generator *)

Lemma sprintf_like_format (sqlField : string) (argNumber : nat) :
  sprintf like_format [VStr sqlField; VNum (Z.of_nat argNumber)]
  = Some (condition_text sqlField argNumber).
Proof. reflexivity. Qed.

Lemma store_lookup_fst (h : Store) (cs xs : list Value) :
  (h ++ [cs; xs]) !! List.length h = Some cs.
Proof. by rewrite list_lookup_middle. Qed.

Lemma store_lookup_snd (h : Store) (cs xs : list Value) :
  (h ++ [cs; xs]) !! S (List.length h) = Some xs.
Proof.
  replace (h ++ [cs; xs]) with ((h ++ [cs]) ++ [xs]) by by rewrite <- app_assoc.
  rewrite list_lookup_middle; [done | rewrite length_app; simpl; lia].
Qed.

Lemma store_insert_fst (h : Store) (cs cs' xs : list Value) :
  <[List.length h := cs']> (h ++ [cs; xs]) = h ++ [cs'; xs].
Proof. induction h as [|x h IH]; simpl; [done | by rewrite IH]. Qed.

Lemma store_insert_snd (h : Store) (cs xs xs' : list Value) :
  <[S (List.length h) := xs']> (h ++ [cs; xs]) = h ++ [cs; xs'].
Proof. induction h as [|x h IH]; simpl; [done | by rewrite IH]. Qed.

Lemma push_fst (h : Store) (cs xs : list Value) (v : Value) :
  push (List.length h) v (h ++ [cs; xs]) = Some (tt, h ++ [cs ++ [v]; xs]).
Proof. unfold push. by rewrite store_lookup_fst, store_insert_fst. Qed.

Lemma push_snd (h : Store) (cs xs : list Value) (v : Value) :
  push (S (List.length h)) v (h ++ [cs; xs]) = Some (tt, h ++ [cs; xs ++ [v]]).
Proof. unfold push. by rewrite store_lookup_snd, store_insert_snd. Qed.

Lemma like_callback_string (h : Store) (cs xs : list Value) (n : nat)
    (field col s : string) :
  jsName2SqlName field = Some col →
  like_callback (List.length h) (S (List.length h)) (VStr s) field n (h ++ [cs; xs])
  = Some (S n, h ++ [cs ++ [VStr (condition_text col (S n))]; xs ++ [VStr s]]).
Proof.
  intros Hcol. unfold like_callback, hbind, hlift, hret. cbn [isString].
  rewrite Hcol. cbv beta iota zeta. rewrite sprintf_like_format. cbv beta iota.
  rewrite push_fst. cbv beta iota. by rewrite push_snd.
Qed.

Lemma like_callback_other (h : Store) (n : nat) (field : string) (value : Value) :
  isString value = false →
  like_callback (List.length h) (S (List.length h)) value field n = hret n.
Proof. intros Hs. unfold like_callback. by rewrite Hs. Qed.

(** The loop of [genWhereLikePrefixConditions], started with the two fresh
    arrays at the end of the store. *)
Lemma each_like (entries : list (string * Value)) :
  ∀ (h : Store) (cs xs : list Value) (n : nat),
  ∃ newconds : list Value,
    each entries (like_callback (List.length h) (S (List.length h))) n (h ++ [cs; xs])
    = Some (n + List.length (string_entries entries),
            h ++ [cs ++ newconds; xs ++ (string_entries entries).*2])
    ∧ List.length newconds = List.length (string_entries entries)
    ∧ ∀ k field v, string_entries entries !! k = Some (field, v) →
        ∃ col, jsName2SqlName field = Some col
               ∧ newconds !! k = Some (VStr (condition_text col (n + k + 1))).
Proof.
  induction entries as [|[field value] rest IH]; intros h cs xs n.
  - exists []. simpl. rewrite !app_nil_r, Nat.add_0_r. split; [done|]. split; [done|].
    intros k f v Hk. by rewrite lookup_nil in Hk.
  - cbn [each string_entries List.filter snd]. fold (string_entries rest).
    destruct (isString value) eqn:Es.
    + destruct value as [| | | |s| |]; try discriminate Es.
      destruct (jsName2SqlName_total field) as [col Hcol].
      destruct (IH h (cs ++ [VStr (condition_text col (S n))]) (xs ++ [VStr s]) (S n))
        as (newconds & Hrun & Hlen & Hat).
      exists (VStr (condition_text col (S n)) :: newconds).
      split; [|split].
      * unfold hbind. rewrite (like_callback_string _ _ _ _ _ _ _ Hcol), Hrun.
        rewrite <- !app_assoc. simpl. do 2 f_equal. lia.
      * simpl. by rewrite Hlen.
      * intros [|k] f v; simpl.
        -- intros [= <- <-]. exists col. split; [done|]. do 3 f_equal. lia.
        -- intros Hk. destruct (Hat k f v Hk) as (col' & Hc & Hn).
           exists col'. split; [done|]. rewrite Hn. do 3 f_equal. lia.
    + destruct (IH h cs xs n) as (newconds & Hrun & Hlen & Hat).
      exists newconds. split; [|done].
      unfold hbind. by rewrite like_callback_other.
Qed.

Lemma genWhereLikePrefixConditions_unfold (criteria : list (string * Value))
    (args : option loc) :
  genWhereLikePrefixConditions criteria args
  = (conditions ←ₕ alloc [];
     args ←ₕ match args with None => alloc [] | Some a => cloneDeep a end;
     argNumber ←ₕ array_length args;
     _ ←ₕ each (visits criteria) (like_callback conditions args) argNumber;
     hret {| conditions := conditions; args := args |}).
Proof. reflexivity. Qed.

(** What the generator returns and how it leaves the store: two arrays
    are appended, the conditions and the extended copy of the arguments;
    the string-valued visits of [forEach] decide what they receive. *)
Lemma genWhereLikePrefixConditions_run (criteria : list (string * Value))
    (args : option loc) (h : Store) (xs : list Value) :
  args_live args h xs →
  ∃ conds : list Value,
    genWhereLikePrefixConditions criteria args h
    = Some ({| conditions := List.length h; args := S (List.length h) |},
            h ++ [conds; xs ++ (string_entries (visits criteria)).*2])
    ∧ List.length conds = List.length (string_entries (visits criteria))
    ∧ ∀ k field v, string_entries (visits criteria) !! k = Some (field, v) →
        ∃ col, jsName2SqlName field = Some col
               ∧ conds !! k = Some (VStr (condition_text col (List.length xs + k + 1))).
Proof.
  intros Hlive.
  destruct (each_like (visits criteria) h [] xs (List.length xs))
    as (conds & Hrun & Hlen & Hat).
  exists conds. split; [|done].
  rewrite genWhereLikePrefixConditions_unfold.
  assert (Hclone : (match args with None => alloc [] | Some a => cloneDeep a end) (h ++ [[]])
                   = Some (S (List.length h), h ++ [[]; xs])).
  { destruct args as [a|]; simpl in Hlive.
    - unfold cloneDeep, hbind, read, alloc.
      rewrite lookup_app_l by (by eapply lookup_lt_Some).
      rewrite Hlive, length_app, <- app_assoc. simpl. do 3 f_equal. lia.
    - subst xs. unfold alloc. rewrite length_app, <- app_assoc. simpl. do 3 f_equal. lia. }
  unfold hbind at 1. unfold alloc at 1. cbv beta iota.
  unfold hbind at 1. rewrite Hclone. cbv beta iota.
  unfold hbind at 1. unfold array_length, hbind, read at 1.
  rewrite store_lookup_snd. cbv beta iota. unfold hret at 1.
  rewrite Hrun. done.
Qed.

(** An object that is not array-like is walked over its own properties. *)
Lemma visits_plain (criteria : list (string * Value)) :
  array_like criteria = false → visits criteria = criteria.
Proof.
  unfold array_like, visits. intros Hplain.
  destruct (length_of (VObj criteria)); try done. by rewrite Hplain.
Qed.

(** C8.  From [{firstName: 'Ja', lastName: 'Br'}] and an empty argument
    array the generator returns the two conditions on ["first_name"] and
    ["last_name"] with placeholders [$1] and [$2], and the arguments
    ['Ja', 'Br'].  Not every string-valued entry yields a condition: from
    [{firstName: 'Ja', length: 1}] the generator returns no condition and
    no argument, because [forEach] walks that object by index. *)
Theorem genWhereLikePrefixConditions_array_like_criteria :
  genWhereLikePrefixConditions
    [("firstName", VStr "Ja"); ("lastName", VStr "Br")] (Some 0) [[]]
  = Some ({| conditions := 1; args := 2 |},
          [ [];
            [VStr (dquote +:+ "first_name" +:+ dquote +:+ " LIKE $1 || '%'");
             VStr (dquote +:+ "last_name" +:+ dquote +:+ " LIKE $2 || '%'")];
            [VStr "Ja"; VStr "Br"] ])
  ∧ string_entries [("firstName", VStr "Ja"); ("length", VNum 1)]
    = [("firstName", VStr "Ja")]
  ∧ genWhereLikePrefixConditions
      [("firstName", VStr "Ja"); ("length", VNum 1)] (Some 0) [[]]
    = Some ({| conditions := 1; args := 2 |}, [ []; []; [] ]).
Proof. split; [|split]; by vm_compute. Qed.

(** C9.  Skipping is not limited to the entries whose value is not a
    string: from [{firstName: 'Ja', length: 1}], whose one non-string
    entry makes the object array-like, the generator returns no condition
    and appends no argument, although one entry holds a string. *)
Theorem genWhereLikePrefixConditions_array_like_count :
  ∃ (r : LikeConditions) (h' : Store),
    genWhereLikePrefixConditions
      [("firstName", VStr "Ja"); ("length", VNum 1)] None [] = Some (r, h')
    ∧ h' !! conditions r = Some []
    ∧ h' !! databaseUtil.args r = Some []
    ∧ List.length (string_entries [("firstName", VStr "Ja"); ("length", VNum 1)]) = 1.
Proof. eexists _, _. split; [by vm_compute|]. by vm_compute. Qed.

(** C10.  The caller's argument array is not mutated: after the call it
    holds what it held before, like every array that existed before the
    call, and the returned [args] is a different array that holds the old
    contents followed by the new values, the strings that [forEach]
    visited. *)
Theorem genWhereLikePrefixConditions_keeps_args
    (criteria : list (string * Value)) (a : loc) (h : Store) (xs : list Value) :
  h !! a = Some xs →
  ∃ (r : LikeConditions) (h' : Store),
    genWhereLikePrefixConditions criteria (Some a) h = Some (r, h')
    ∧ h' !! a = Some xs
    ∧ databaseUtil.args r ≠ a
    ∧ h' !! databaseUtil.args r = Some (xs ++ (string_entries (visits criteria)).*2)
    ∧ ∀ l, l < List.length h → h' !! l = h !! l.
Proof.
  intros Hlive.
  destruct (genWhereLikePrefixConditions_run criteria (Some a) h xs Hlive)
    as (conds & Hrun & _ & _).
  pose proof (lookup_lt_Some _ _ _ Hlive) as Hlt.
  eexists _, _. split; [exact Hrun|]. simpl.
  split; [by rewrite lookup_app_l|].
  split; [lia|]. split; [apply store_lookup_snd|].
  intros l Hl. by rewrite lookup_app_l.
Qed.

Lemma genWhereLikePrefixConditions_keeps_args_witness :
  [[VStr "already"; VStr "got"]] !! 0 = Some [VStr "already"; VStr "got"]
  ∧ ∃ (r : LikeConditions) (h' : Store),
      genWhereLikePrefixConditions [("zipCode4", VStr "47"); ("length", VNum 2)] (Some 0)
        [[VStr "already"; VStr "got"]] = Some (r, h')
      ∧ h' !! 0 = Some [VStr "already"; VStr "got"]
      ∧ databaseUtil.args r ≠ 0
      ∧ h' !! databaseUtil.args r
        = Some ([VStr "already"; VStr "got"]
                ++ (string_entries
                      (visits [("zipCode4", VStr "47"); ("length", VNum 2)])).*2)
      ∧ ∀ l, l < List.length [[VStr "already"; VStr "got"]] →
             h' !! l = [[VStr "already"; VStr "got"]] !! l.
Proof.
  split; [reflexivity|].
  apply (genWhereLikePrefixConditions_keeps_args _ 0 [[VStr "already"; VStr "got"]]).
  reflexivity.
Defined.

(** ** Result projection *)

(** C7.  A result without a [rows] property projects to the empty
    sequence and a result with one to that property, unchanged; the
    single-row projection of [[]] is the empty mapping and that of a
    non-empty sequence is its first row. *)
Theorem projection_rules :
  (∀ queryResult : Value,
     has queryResult "rows" = false → turnQueryResultIntoRows queryResult = VArr [])
  ∧ (∀ (fields : list (string * Value)) (rows : Value),
       get_field "rows" fields = Some rows →
       turnQueryResultIntoRows (VObj fields) = rows)
  ∧ turnRowsIntoSingleResult (VArr []) = VObj []
  ∧ (∀ (r1 : Value) (rest : list Value),
       turnRowsIntoSingleResult (VArr (r1 :: rest)) = r1)
  ∧ turnQueryResultIntoRows
      (VObj [("rows", VArr [VObj [("id", VNum 1)]; VObj [("id", VNum 2)]])])
    = VArr [VObj [("id", VNum 1)]; VObj [("id", VNum 2)]]
  ∧ turnQueryResultIntoRows (VObj []) = VArr [].
Proof.
  split; [|split; [|repeat split]].
  - intros qr Hno. unfold turnQueryResultIntoRows. by rewrite Hno.
  - intros fields rows Hrows. unfold turnQueryResultIntoRows, has, prop.
    rewrite Hrows. reflexivity.
Qed.

Lemma projection_rules_witness :
  has (VArr []) "rows" = false ∧ turnQueryResultIntoRows (VArr []) = VArr []
  ∧ get_field "rows" [("rowCount", VNum 1); ("rows", VArr [VObj [("id", VNum 7)]])]
    = Some (VArr [VObj [("id", VNum 7)]])
  ∧ turnQueryResultIntoRows
      (VObj [("rowCount", VNum 1); ("rows", VArr [VObj [("id", VNum 7)]])])
    = VArr [VObj [("id", VNum 7)]].
Proof.
  split; [reflexivity|].
  split; [apply (proj1 projection_rules (VArr [])); reflexivity|].
  split; [reflexivity|].
  apply (proj1 (proj2 projection_rules)
           [("rowCount", VNum 1); ("rows", VArr [VObj [("id", VNum 7)]])]).
  reflexivity.
Defined.

(** ** The squel adapter *)

(** C4.  With an empty or missing [text] the adapter resolves to [[]]
    at once, leaves the world as it was and does not invoke the query
    function; with a non-empty [text] it invokes the query function
    exactly once, with that text, the values ([[]] when missing) and the
    client, and its outcome is that invocation's. *)
Theorem squelQuery_dispatch
    (fnQuery : string → option (list Value) → option Client → M World (Promise Value))
    (q : SquelQuery) (client : option Client) (w : World) :
  (text_is_empty q →
     __DI_squelQuery (counted fnQuery) q client ([], w)
     = (Normal (Resolved (VArr [])), ([], w)))
  ∧ (∀ t : string, text q = Some t → t ≠ EmptyString →
       __DI_squelQuery (counted fnQuery) q client ([], w)
       = let '(r, w') := fnQuery t (Some (default [] (values q))) client w in
         (r, ([(t, Some (default [] (values q)), client)], w'))).
Proof.
  unfold __DI_squelQuery. split.
  - intros [Ht | Ht]; rewrite Ht; reflexivity.
  - intros t Ht Hne. rewrite Ht.
    destruct (String.eqb t EmptyString) eqn:E.
    + apply String.eqb_eq in E. contradiction.
    + unfold counted. simpl. by destruct (values q).
Qed.

Lemma squelQuery_dispatch_witness :
  text_is_empty {| text := Some EmptyString; values := Some [VNum 1] |}
  ∧ __DI_squelQuery (counted (fun _ _ _ => value (VObj [])))
      {| text := Some EmptyString; values := Some [VNum 1] |} (Some 4) ([], [])
    = (Normal (Resolved (VArr [])), ([], []))
  ∧ text {| text := Some "SELECT 1"; values := None |} = Some "SELECT 1"
  ∧ "SELECT 1" ≠ EmptyString
  ∧ __DI_squelQuery (counted (fun _ _ _ => value (VObj [])))
      {| text := Some "SELECT 1"; values := None |} (Some 4) ([], [])
    = (Normal (Resolved (VObj [])), ([("SELECT 1", Some [], Some 4)], [])).
Proof.
  split; [by right|].
  split.
  { apply (proj1 (squelQuery_dispatch (fun _ _ _ => value (VObj []))
                    {| text := Some EmptyString; values := Some [VNum 1] |} (Some 4) [])).
    by right. }
  split; [reflexivity|]. split; [discriminate|].
  apply (proj2 (squelQuery_dispatch (fun _ _ _ => value (VObj []))
                  {| text := Some "SELECT 1"; values := None |} (Some 4) [])
           "SELECT 1"); [reflexivity | discriminate].
Defined.

(** ** Transactions *)

Lemma releases_of_app (c : Client) (w1 w2 : World) :
  releases_of c (w1 ++ w2) = releases_of c w1 + releases_of c w2.
Proof. unfold releases_of. by rewrite List.filter_app, length_app. Qed.

(** C5.  When the [ROLLBACK] statement fails, [rollbackTransaction]
    calls [release] on the client exactly once and its promise resolves:
    the failure is not passed on.  When the statement succeeds, no client
    is released. *)
Theorem rollback_failure_releases
    (driver : Client → string → list Value → World → DriverReply)
    (client : Client) (w : World) :
  let reply := driver client "ROLLBACK" [] (w ++ [ClientQuery client "ROLLBACK" []]) in
  (statement_fails reply →
     ∃ w' : World,
       rollbackTransaction driver client w = (Normal (Resolved VUndefined), w ++ w')
       ∧ releases_of client w' = 1
       ∧ ∀ c, c ≠ client → releases_of c w' = 0)
  ∧ (∀ result : Value, reply = ReplyResult result →
       ∃ w' : World,
         rollbackTransaction driver client w = (Normal (Resolved result), w ++ w')
         ∧ ∀ c, releases_of c w' = 0).
Proof.
  intros reply. subst reply.
  unfold rollbackTransaction, __makeClientQueryPromise, new_Promise, settle, bind,
    emit, release, catch_, value, ret. cbn.
  destruct (driver client "ROLLBACK" [] (w ++ [ClientQuery client "ROLLBACK" []]))
    as [result | err | err] eqn:Ed; cbn; (split; [intros Hf | intros r Hr]);
    try contradiction; try discriminate.
  - injection Hr as <-. exists [ClientQuery client "ROLLBACK" []]. done.
  - exists [ClientQuery client "ROLLBACK" []; ClientRelease client].
    rewrite <- app_assoc. split; [done|]. unfold releases_of. cbn.
    rewrite Nat.eqb_refl. split; [done|]. intros c Hc.
    by destruct (Nat.eqb_spec c client).
  - exists [ClientQuery client "ROLLBACK" []; ClientRelease client].
    rewrite <- app_assoc. split; [done|]. unfold releases_of. cbn.
    rewrite Nat.eqb_refl. split; [done|]. intros c Hc.
    by destruct (Nat.eqb_spec c client).
Qed.

Lemma rollback_failure_releases_witness :
  statement_fails
    (rollback_failing_driver 3 "ROLLBACK" [] ([] ++ [ClientQuery 3 "ROLLBACK" []]))
  ∧ (∃ w' : World,
       rollbackTransaction rollback_failing_driver 3 []
       = (Normal (Resolved VUndefined), [] ++ w')
       ∧ releases_of 3 w' = 1
       ∧ ∀ c, c ≠ 3 → releases_of c w' = 0)
  ∧ answering_driver 3 "ROLLBACK" [] ([] ++ [ClientQuery 3 "ROLLBACK" []])
    = ReplyResult sample_rows
  ∧ ∃ w' : World,
      rollbackTransaction answering_driver 3 [] = (Normal (Resolved sample_rows), [] ++ w')
      ∧ ∀ c, releases_of c w' = 0.
Proof.
  split; [exact I|].
  split; [apply (proj1 (rollback_failure_releases rollback_failing_driver 3 [])); exact I|].
  split; [reflexivity|].
  apply (proj2 (rollback_failure_releases answering_driver 3 []) sample_rows).
  reflexivity.
Defined.

(** ** The managed query path *)

Lemma calls_of_app (w1 w2 : World) : calls_of (w1 ++ w2) = calls_of w1 ++ calls_of w2.
Proof. unfold calls_of. by rewrite List.filter_app. Qed.

(** The whole run of the managed path when the pool leases a client. *)
Lemma simpleQuery_run
    (pool_connect : PoolId → World → Promise Client)
    (driver : Client → string → list Value → World → DriverReply)
    (pool : PoolId) (options : ConfigOptions) (queryString : string)
    (args : option (list Value)) (w : World) (c : Client) :
  pool_connect pool (w ++ [PoolConnect pool]) = Resolved c →
  let before := log_before_release pool c (verbose options) queryString args in
  let reply := driver c queryString (default [] args) (w ++ before) in
  __DI_simpleQuery pool_connect driver pool options queryString args w
  = (Normal (settles_as reply),
     w ++ before ++ ClientRelease c :: log_after_release (verbose options) reply).
Proof.
  intros Hconnect before reply. subst before reply.
  unfold __DI_simpleQuery, log_before_release, log_after_release, with_local, connect,
    bind, emit.
  cbn. rewrite Hconnect.
  destruct (verbose options); destruct args as [args|];
    unfold __makeClientQueryPromise, new_Promise, then_, catch_, finally_, settle,
      release, when, console_log, console_error, bind, emit, value, ret, throw,
      set_local, get_local;
    cbn; repeat rewrite <- app_assoc; cbn;
    case_driver_reply driver; cbn; repeat rewrite <- app_assoc; reflexivity.
Qed.

(** When the pool cannot lease a client, nothing is released. *)
Lemma simpleQuery_no_client
    (pool_connect : PoolId → World → Promise Client)
    (driver : Client → string → list Value → World → DriverReply)
    (pool : PoolId) (options : ConfigOptions) (queryString : string)
    (args : option (list Value)) (w : World) (err : Error) :
  pool_connect pool (w ++ [PoolConnect pool]) = Rejected err →
  ∃ w' : World,
    __DI_simpleQuery pool_connect driver pool options queryString args w
    = (Normal (Rejected err), w ++ w')
    ∧ calls_of w' = [PoolConnect pool].
Proof.
  intros Hconnect.
  unfold __DI_simpleQuery, with_local, connect, bind, emit. cbn. rewrite Hconnect.
  destruct (verbose options); cbn.
  - eexists [_; _]. rewrite <- app_assoc. split; reflexivity.
  - eexists [_]. split; reflexivity.
Qed.

(** C1.  A [query] without a client asks the pool for a client exactly
    once.  When the pool leases one, [release] is called on it exactly
    once, whatever the driver answers: a result, an error, or an exception
    raised inside the call; no other client is released.  The release
    follows the statement and is already in the log when the promise
    settles; only console output may come after it.  When the pool leases
    nothing, the promise rejects and there is nothing to release. *)
Theorem query_managed_releases_once
    (pool_connect : PoolId → World → Promise Client)
    (driver : Client → string → list Value → World → DriverReply)
    (this : Connection) (queryString : string) (args : option (list Value))
    (w : World) (pool : PoolId) :
  __pool this = Some pool →
  ∃ (p : Promise Value) (w' : World),
    query pool_connect driver this queryString args None w = (Normal p, w ++ w')
    ∧ acquisitions w' = 1
    ∧ (∀ c : Client,
         pool_connect pool (w ++ [PoolConnect pool]) = Resolved c →
         ∃ (before after : World),
           w' = before ++ ClientRelease c :: after
           ∧ p = settles_as (driver c queryString (default [] args) (w ++ before))
           ∧ calls_of before
             = [PoolConnect pool; ClientQuery c queryString (default [] args)]
           ∧ calls_of after = []
           ∧ releases_of c w' = 1
           ∧ ∀ c', c' ≠ c → releases_of c' w' = 0)
    ∧ (∀ err : Error,
         pool_connect pool (w ++ [PoolConnect pool]) = Rejected err →
         p = Rejected err ∧ calls_of w' = [PoolConnect pool]).
Proof.
  intros Hpool.
  unfold query, __DI_query, __simpleQuery. rewrite Hpool.
  destruct (pool_connect pool (w ++ [PoolConnect pool])) as [c|err] eqn:Hconnect.
  - rewrite (simpleQuery_run _ _ _ _ _ _ _ _ Hconnect).
    eexists _, _. split; [reflexivity|].
    split; [|split; [|discriminate]].
    + unfold log_before_release, log_after_release, acquisitions.
      destruct (verbose (config (__config this))); destruct args as [args|];
        case_driver_reply driver; reflexivity.
    + intros c0 [= <-]. eexists _, _. split; [reflexivity|]. split; [reflexivity|].
      unfold log_before_release, log_after_release, releases_of.
      destruct (verbose (config (__config this))); destruct args as [args|];
        case_driver_reply driver; cbn; rewrite ?Nat.eqb_refl;
        (repeat split; try done; intros c' Hc'; by destruct (Nat.eqb_spec c' c)).
  - destruct (simpleQuery_no_client pool_connect driver pool (config (__config this))
                queryString args w err Hconnect) as (w' & Hrun & Hcalls).
    rewrite Hrun. exists (Rejected err), w'. split; [reflexivity|].
    split; [|split; [discriminate|]].
    + unfold acquisitions. 
      assert (Hsame : List.filter is_connect w' = List.filter is_connect (calls_of w')).
      { unfold calls_of. clear. induction w' as [|e w' IH]; [done|].
        destruct e; cbn; by rewrite ?IH. }
      by rewrite Hsame, Hcalls.
    + by intros err' [= <-].
Qed.

Lemma query_managed_releases_once_witness :
  __pool verbose_connection = Some 0
  ∧ ∃ (p : Promise Value) (w' : World),
      query sample_pool rejecting_driver verbose_connection "SELECT * FROM crm" None None []
      = (Normal p, [] ++ w')
      ∧ acquisitions w' = 1
      ∧ sample_pool 0 ([] ++ [PoolConnect 0]) = Resolved 7
      ∧ ∃ (before after : World),
          w' = before ++ ClientRelease 7 :: after
          ∧ p = settles_as
                  (rejecting_driver 7 "SELECT * FROM crm" (default [] None) ([] ++ before))
          ∧ calls_of before
            = [PoolConnect 0; ClientQuery 7 "SELECT * FROM crm" (default [] None)]
          ∧ calls_of after = []
          ∧ releases_of 7 w' = 1
          ∧ ∀ c', c' ≠ 7 → releases_of c' w' = 0.
Proof.
  split; [reflexivity|].
  destruct (query_managed_releases_once sample_pool rejecting_driver verbose_connection
              "SELECT * FROM crm" None [] 0 eq_refl)
    as (p & w' & Hrun & Hacq & Hleased & _).
  exists p, w'. split; [exact Hrun|]. split; [exact Hacq|]. split; [reflexivity|].
  exact (Hleased 7 eq_refl).
Defined.

(** ** The registry *)

Lemma append_empty_r (s : string) : s +:+ EmptyString = s.
Proof.
  induction s as [|c s IH]; [done|].
  change (String c (s +:+ EmptyString) = String c s). by rewrite IH.
Qed.

Section RegistryProperties.

Variable cwd : string.
Variable path_join : list string → string.
Variable require : string → option ConnectionConfig.

Lemma loadConnectionConfigFromFile_run (name mode : string) (r : Registry) :
  __loadConnectionConfigFromFile cwd path_join require name mode r
  = match require (config_filename cwd path_join name mode) with
    | Some c => (Normal c, r)
    | None =>
        (Throw (new_Error ("Configuration file not found: "
                           +:+ config_filename cwd path_join name mode)), r)
    end.
Proof.
  unfold __loadConnectionConfigFromFile, sprintf_js, bind.
  change (sprintf "%s.js" [VStr name]) with (Some (name +:+ ".js")).
  unfold ret at 1. cbv beta iota. fold (config_filename cwd path_join name mode).
  destruct (require (config_filename cwd path_join name mode)); [done|].
  change (sprintf "Configuration file not found: %s"
            [VStr (config_filename cwd path_join name mode)])
    with (Some ("Configuration file not found: "
                +:+ (config_filename cwd path_join name mode +:+ EmptyString))).
  by rewrite append_empty_r.
Qed.

(** The configuration step of a first lookup. *)
Lemma resolve_config_run (name : string) (mode : option string)
    (configOverride : option ConnectionConfig) (r : Registry) :
  (match configOverride with
   | Some c => ret c
   | None => __loadConnectionConfigFromFile cwd path_join require name (effective_mode mode)
   end) r
  = match resolve_config cwd path_join require name mode configOverride with
    | Some cfg => (Normal cfg, r)
    | None =>
        (Throw (new_Error ("Configuration file not found: "
                           +:+ config_filename cwd path_join name (effective_mode mode))), r)
    end.
Proof.
  unfold resolve_config. destruct configOverride as [c|]; [done|].
  rewrite loadConnectionConfigFromFile_run. by destruct (require _).
Qed.

(** A lookup of a name other than [__proto__] that is not registered,
    whose configuration resolves: one pool is created and the new
    connection is registered. *)
Lemma getConnection_first (name : string) (mode : option string)
    (configOverride : option ConnectionConfig) (r : Registry) (cfg : ConnectionConfig) :
  method_intact r →
  name ≠ "__proto__" →
  __connections r !! name = None →
  resolve_config cwd path_join require name mode configOverride = Some cfg →
  let dbc := {| __name := name; __config := cfg;
                __pool := Some (List.length (pools r)) |} in
  getConnection cwd path_join require name mode configOverride r
  = (Normal (Some (Registered dbc)),
     {| __connections := <[name := Registered dbc]> (__connections r);
        prototype := prototype r;
        pools := pools r ++ [connection cfg] |}).
Proof.
  intros Hmethod Hname Hnew Hcfg dbc. subst dbc. apply String.eqb_neq in Hname.
  unfold getConnection, hasOwnProperty, bind at 1. fold (effective_mode mode).
  rewrite Hmethod, Hnew. rewrite bool_decide_false by (by intros [? ?]). cbn [negb].
  unfold bind at 1. unfold bind at 1. rewrite resolve_config_run, Hcfg.
  unfold __startPool, new_PgPool, set_connection, get_connection, new_DatabaseConnection,
    bind, ret. rewrite Hname. cbn.
  rewrite insert_insert_eq, lookup_insert_eq. reflexivity.
Qed.

(** A lookup of [__proto__] whose configuration resolves: one pool is
    created, the new connection becomes the prototype of the registry, and
    no name is registered. *)
Lemma getConnection_first_proto (mode : option string)
    (configOverride : option ConnectionConfig) (r : Registry) (cfg : ConnectionConfig) :
  method_intact r →
  __connections r !! "__proto__" = None →
  resolve_config cwd path_join require "__proto__" mode configOverride = Some cfg →
  let dbc := {| __name := "__proto__"; __config := cfg;
                __pool := Some (List.length (pools r)) |} in
  getConnection cwd path_join require "__proto__" mode configOverride r
  = (Normal (Some (Registered dbc)),
     {| __connections := __connections r;
        prototype := Some (Registered dbc);
        pools := pools r ++ [connection cfg] |}).
Proof.
  intros Hmethod Hnew Hcfg dbc. subst dbc.
  unfold getConnection, hasOwnProperty, bind at 1. fold (effective_mode mode).
  rewrite Hmethod, Hnew. rewrite bool_decide_false by (by intros [? ?]). cbn [negb].
  unfold bind at 1. unfold bind at 1. rewrite resolve_config_run, Hcfg.
  unfold __startPool, new_PgPool, set_connection, get_connection, new_DatabaseConnection,
    bind, ret. cbn. by rewrite Hnew.
Qed.

(** A lookup of a name whose configuration cannot be resolved throws and
    leaves the registry as it was. *)
Lemma getConnection_not_found (name : string) (mode : option string)
    (configOverride : option ConnectionConfig) (r : Registry) :
  method_intact r →
  __connections r !! name = None →
  resolve_config cwd path_join require name mode configOverride = None →
  getConnection cwd path_join require name mode configOverride r
  = (Throw (new_Error ("Configuration file not found: "
                       +:+ config_filename cwd path_join name (effective_mode mode))), r).
Proof.
  intros Hmethod Hnew Hcfg.
  unfold getConnection, hasOwnProperty, bind at 1. fold (effective_mode mode).
  rewrite Hmethod, Hnew. rewrite bool_decide_false by (by intros [? ?]). cbn [negb].
  unfold bind at 1. unfold bind at 1. by rewrite resolve_config_run, Hcfg.
Qed.

(** A lookup of a registered name returns the entry and changes nothing. *)
Lemma getConnection_cached (name : string) (mode : option string)
    (configOverride : option ConnectionConfig) (r : Registry) (e : Entry) :
  method_intact r →
  __connections r !! name = Some e →
  getConnection cwd path_join require name mode configOverride r = (Normal (Some e), r).
Proof.
  intros Hmethod Hknown.
  unfold getConnection, hasOwnProperty, get_connection, bind, ret.
  rewrite Hmethod, Hknown. rewrite bool_decide_true by (by eexists). cbn.
  by rewrite Hknown.
Qed.

(** Once an entry is stored under [hasOwnProperty], every lookup raises
    a [TypeError] and changes nothing. *)
Lemma getConnection_shadowed (name : string) (mode : option string)
    (configOverride : option ConnectionConfig) (r : Registry) (e : Entry) :
  __connections r !! "hasOwnProperty" = Some e →
  getConnection cwd path_join require name mode configOverride r
  = (Throw (new_Error "TypeError"), r).
Proof.
  intros Hshadow. unfold getConnection, hasOwnProperty, bind at 1. by rewrite Hshadow.
Qed.

(** The registry after a lookup: unchanged, or with one more pool, whose
    connection is registered under the name or, for [__proto__], installed
    as the prototype. *)
Lemma getConnection_registry (name : string) (mode : option string)
    (configOverride : option ConnectionConfig) (r : Registry) :
  __connections r !! "__proto__" = None →
  let r' := (getConnection cwd path_join require name mode configOverride r).2 in
  r' = r
  ∨ ∃ cfg : ConnectionConfig,
      let dbc := {| __name := name; __config := cfg;
                    __pool := Some (List.length (pools r)) |} in
      __connections r !! name = None
      ∧ pools r' = pools r ++ [connection cfg]
      ∧ (name ≠ "__proto__" ∧ __connections r' = <[name := Registered dbc]> (__connections r)
         ∨ name = "__proto__" ∧ __connections r' = __connections r).
Proof.
  intros Hproto r'. subst r'.
  destruct (__connections r !! "hasOwnProperty") as [e|] eqn:Hmethod.
  { left. by rewrite (getConnection_shadowed _ _ _ _ _ Hmethod). }
  destruct (__connections r !! name) as [e|] eqn:Hname.
  { left. by rewrite (getConnection_cached _ _ _ _ _ Hmethod Hname). }
  destruct (resolve_config cwd path_join require name mode configOverride) as [cfg|] eqn:Hcfg.
  - right. exists cfg. cbv zeta. split; [done|].
    destruct (decide (name = "__proto__")) as [->|Hne].
    + rewrite (getConnection_first_proto _ _ _ _ Hmethod Hproto Hcfg). cbn. auto.
    + rewrite (getConnection_first _ _ _ _ _ Hmethod Hne Hname Hcfg). cbn. auto.
  - left. by rewrite (getConnection_not_found _ _ _ _ Hmethod Hname Hcfg).
Qed.

End RegistryProperties.

(** C6.  Lookups are not idempotent for every name.  Two lookups of
    [__proto__] create two pools and return two different connection
    objects, because the assignment to [__proto__] registers no name; and
    once a connection is registered under [hasOwnProperty], the next
    lookup of that name raises a [TypeError] instead of returning it. *)
Theorem getConnection_not_idempotent :
  (∃ (dbc1 dbc2 : Connection) (r1 r2 : Registry),
     getConnection "/srv/app" sample_path_join sample_require
       "__proto__" None (Some sample_config) empty_registry
     = (Normal (Some (Registered dbc1)), r1)
     ∧ getConnection "/srv/app" sample_path_join sample_require
         "__proto__" None (Some sample_config) r1
       = (Normal (Some (Registered dbc2)), r2)
     ∧ dbc1 ≠ dbc2
     ∧ pools r1 = [sample_details]
     ∧ pools r2 = [sample_details; sample_details])
  ∧ (∃ (dbc : Connection) (r1 : Registry),
       getConnection "/srv/app" sample_path_join sample_require
         "hasOwnProperty" None (Some sample_config) empty_registry
       = (Normal (Some (Registered dbc)), r1)
       ∧ getConnection "/srv/app" sample_path_join sample_require
           "hasOwnProperty" None (Some sample_config) r1
         = (Throw (new_Error "TypeError"), r1)).
Proof.
  split.
  - eexists _, _, _, _.
    split; [by apply (getConnection_first_proto _ _ _ None (Some sample_config)
                        empty_registry sample_config)|].
    split; [by apply getConnection_first_proto|].
    split; [discriminate|]. split; reflexivity.
  - eexists _, _.
    split; [by apply (getConnection_first _ _ _ "hasOwnProperty" None (Some sample_config)
                        empty_registry sample_config)|].
    eapply getConnection_shadowed. cbn. apply lookup_insert_eq.
Qed.

(** ** The basic service runner *)



(** Unconditional dispatch fails: with mode ['one'] and a failing
    validator the one-row function is not invoked at all. *)
Lemma executes_exactly_once_counterexample :
  ¬ executes_exactly_once (sample_service false "one") resolve_true resolve_true None [].
Proof.
  unfold executes_exactly_once. vm_compute.
  intros (Hone & _). destruct (Hone eq_refl) as [Hcount _]. discriminate Hcount.
Qed.

Lemma is_string_literal_eq (v : Value) (s : string) :
  is_string_literal v s = true ↔ v = VStr s.
Proof.
  destruct v; simpl; try (split; [discriminate | by inversion 1]).
  rewrite String.eqb_eq. split; [by intros -> | by inversion 1].
Qed.

(** C3, amended.  With mode ['one'] the many-row function is never
    invoked, and the one-row function is invoked exactly once when the
    steps before execution all complete and not at all otherwise;
    symmetrically for ['many'].  With any other mode the runner rejects
    with [SERVER_REQUEST_ERROR] and invokes nothing. *)
Theorem runBasicService_dispatch
    (config : runBasicServiceConfig)
    (fnOne fnMany : SquelQuery → option Client → M World (Promise Value))
    (fnConvert : option (Value → list string → Value)) (w : World) :
  ∃ (r : Completion (Promise Value)) (calls : list Call) (w' : World),
    __DI_runBasicService config fnOne fnMany fnConvert ([], w) = (r, (calls, w'))
    ∧ (oneOrMany config = VStr "one" →
         invocations is_query_one calls = count_if_reached config w
         ∧ invocations is_query_many calls = 0)
    ∧ (oneOrMany config = VStr "many" →
         invocations is_query_many calls = count_if_reached config w
         ∧ invocations is_query_one calls = 0)
    ∧ (mode_recognised config = false →
         r = Normal (Rejected (new_Error "SERVER_REQUEST_ERROR"))
         ∧ calls = [] ∧ w' = w).
Proof.
  destruct (__DI_runBasicService config fnOne fnMany fnConvert ([], w))
    as [r [calls w']] eqn:Hrun.
  exists r, calls, w'. split; [done|].
  revert Hrun. unfold __DI_runBasicService, mode_recognised, count_if_reached,
    reaches_execution.
  fold (service_client config).
  destruct (is_string_literal (oneOrMany config) "one") eqn:Eone;
    [|destruct (is_string_literal (oneOrMany config) "many") eqn:Emany].
  all: unfold invoke, note, lift, bind, then_, settle, value, ret, throw; cbn.
  all: repeat (case_innermost; cbn).
  all: intros Hrun; inversion Hrun; subst; clear Hrun.
  all: try apply is_string_literal_eq in Eone.
  all: try apply is_string_literal_eq in Emany.
  all: repeat split; try done; try congruence.
  all: match goal with
       | Hmode : oneOrMany _ = VStr _ |- _ => rewrite Hmode in *; discriminate
       end.
Qed.

Lemma runBasicService_dispatch_witness :
  ∃ (r : Completion (Promise Value)) (calls : list Call) (w' : World),
    __DI_runBasicService (sample_service true "one") resolve_true resolve_true None ([], [])
    = (r, (calls, w'))
    ∧ oneOrMany (sample_service true "one") = VStr "one"
    ∧ invocations is_query_one calls = 1
    ∧ invocations is_query_many calls = 0.
Proof.
  destruct (runBasicService_dispatch (sample_service true "one")
              resolve_true resolve_true None [])
    as (r & calls & w' & Hrun & Hone & _).
  exists r, calls, w'. split; [exact Hrun|]. split; [reflexivity|].
  exact (Hone eq_refl).
Defined.

(** * Further properties *)

(** ** Strings *)

Lemma append_assoc (a b c : string) : (a +:+ b) +:+ c = a +:+ (b +:+ c).
Proof.
  induction a as [|x a IH]; [done|].
  change (String x ((a +:+ b) +:+ c) = String x (a +:+ (b +:+ c))). by rewrite IH.
Qed.

Lemma append_cons (x : ascii) (a b : string) : String x a +:+ b = String x (a +:+ b).
Proof. reflexivity. Qed.

Lemma append_nil_l (b : string) : EmptyString +:+ b = b.
Proof. reflexivity. Qed.

Lemma slice_to_app (a b : string) : slice_to (String.length a) (a +:+ b) = a.
Proof.
  induction a as [|x a IH]; [by destruct b|].
  rewrite append_cons. simpl. by rewrite IH.
Qed.

Lemma slice_from_app (a b : string) : slice_from (String.length a) (a +:+ b) = b.
Proof.
  induction a as [|x a IH]; [by destruct b|].
  rewrite append_cons. simpl. by rewrite IH.
Qed.

Lemma slice_from_beyond (n : nat) (s : string) :
  String.length s ≤ n → slice_from n s = EmptyString.
Proof.
  revert n. induction s as [|x s IH]; intros [|n] Hn; simpl in *; try done; try lia.
  apply IH. lia.
Qed.

Lemma get_app (a b : string) (c : ascii) :
  String.get (String.length a) (a +:+ String c b) = Some c.
Proof. induction a as [|x a IH]; [done|]. rewrite append_cons. simpl. exact IH. Qed.

Lemma find_from_app (p : ascii → bool) (a b : string) :
  find_from p (String.length a) (a +:+ b)
  = (fun k => String.length a + k) <$> find_from p 0 b.
Proof.
  induction a as [|x a IH].
  - rewrite append_nil_l. simpl. by destruct (find_from p 0 b).
  - rewrite append_cons. simpl. rewrite IH. by destruct (find_from p 0 b).
Qed.

Lemma find_from_beyond (p : ascii → bool) (s : string) (n : nat) :
  String.length s ≤ n → find_from p n s = None.
Proof.
  revert n. induction s as [|x s IH]; intros n Hn; [done|].
  simpl in *. destruct n as [|n]; [lia|]. rewrite IH; [done | lia].
Qed.

(** The first match splits the string around it. *)
Lemma find_from_split (p : ascii → bool) (s : string) (k : nat) :
  find_from p 0 s = Some k →
  ∃ (a : string) (c : ascii) (b : string),
    s = a +:+ String c b ∧ String.length a = k ∧ p c = true
    ∧ all_chars (fun x => negb (p x)) a = true.
Proof.
  revert k. induction s as [|x s IH]; intros k Hf; [done|].
  simpl in Hf. destruct (p x) eqn:Ex.
  - injection Hf as <-. by exists EmptyString, x, s.
  - destruct (find_from p 0 s) as [j|] eqn:Ej; [|done].
    injection Hf as <-. destruct (IH j eq_refl) as (a & c & b & -> & <- & Hc & Ha).
    exists (String x a), c, b. repeat split; try done. simpl. by rewrite Ex, Ha.
Qed.

Lemma find_from_none (p : ascii → bool) (s : string) :
  find_from p 0 s = None → all_chars (fun x => negb (p x)) s = true.
Proof.
  induction s as [|x s IH]; [done|]. simpl.
  destruct (p x); [done|]. destruct (find_from p 0 s); [done|]. intros _. by apply IH.
Qed.

Lemma run_length_app (p : ascii → bool) (a b : string) :
  run_length p (String.length a) (a +:+ b) = run_length p 0 b.
Proof. induction a as [|x a IH]; [done|]. rewrite append_cons. simpl. exact IH. Qed.

(** The run of [p]-characters at the head of a string, and what follows. *)
Lemma run_split (p : ascii → bool) (s : string) :
  ∃ (run rest : string),
    s = run +:+ rest ∧ String.length run = run_length p 0 s
    ∧ all_chars p run = true ∧ head_not p rest = true.
Proof.
  induction s as [|x s IH].
  - by exists EmptyString, EmptyString.
  - simpl. destruct (p x) eqn:Ex.
    + destruct IH as (run & rest & -> & Hlen & Hall & Hhead).
      exists (String x run), rest. repeat split; try done.
      * simpl. by rewrite Hlen.
      * simpl. by rewrite Ex, Hall.
    + exists EmptyString, (String x s). repeat split; try done. simpl. by rewrite Ex.
Qed.

(** ** Characters *)

Lemma upper_not_digit (c : ascii) : is_upper c = true → is_digit c = false.
Proof. destruct c as [[] [] [] [] [] [] [] []]; vm_compute; congruence. Qed.

Lemma digit_not_upper (c : ascii) : is_digit c = true → is_upper c = false.
Proof. destruct c as [[] [] [] [] [] [] [] []]; vm_compute; congruence. Qed.

Lemma toLowerCase_digit (c : ascii) : is_digit c = true → toLowerCase c = c.
Proof. intros Hd. unfold toLowerCase. by rewrite (digit_not_upper _ Hd). Qed.

Lemma toUpperCase_digit (c : ascii) : is_digit c = true → toUpperCase c = c.
Proof. destruct c as [[] [] [] [] [] [] [] []]; vm_compute; congruence. Qed.

Lemma digit_not_underscore (c : ascii) : is_digit c = true → is_underscore c = false.
Proof. destruct c as [[] [] [] [] [] [] [] []]; vm_compute; congruence. Qed.

Lemma upper_lower_round_trip (c : ascii) :
  is_upper c = true → toUpperCase (toLowerCase c) = c.
Proof. destruct c as [[] [] [] [] [] [] [] []]; vm_compute; congruence. Qed.

Lemma lowered_not_underscore (c : ascii) :
  is_upper c = true → is_underscore (toLowerCase c) = false.
Proof. destruct c as [[] [] [] [] [] [] [] []]; vm_compute; congruence. Qed.

Lemma lowered_not_digit (c : ascii) :
  is_upper c = true → is_digit (toLowerCase c) = false.
Proof. destruct c as [[] [] [] [] [] [] [] []]; vm_compute; congruence. Qed.

Lemma is_underscore_eq (c : ascii) : is_underscore c = true → c = "_"%char.
Proof. unfold is_underscore. by rewrite Ascii.eqb_eq. Qed.

(** ** The single passes over a prefix without matches *)

Lemma snake_upper_skip (a t : string) (first : bool) :
  all_chars (fun x => negb (is_upper x)) a = true →
  snake_upper first (a +:+ t) = a +:+ snake_upper (first && is_empty a) t.
Proof.
  revert first. induction a as [|x a IH]; intros first Ha.
  - rewrite !append_nil_l. by rewrite andb_true_r.
  - simpl in Ha. apply andb_prop in Ha as [Hx Ha]. apply negb_true_iff in Hx.
    rewrite !append_cons. simpl. rewrite Hx. simpl.
    rewrite (IH false Ha). simpl. by rewrite andb_false_r.
Qed.

Lemma snake_upper_none (s : string) (first : bool) :
  all_chars (fun x => negb (is_upper x)) s = true → snake_upper first s = s.
Proof.
  intros Hs. pose proof (snake_upper_skip s EmptyString first Hs) as H.
  by rewrite !append_empty_r in H.
Qed.

Lemma snake_digits_skip (a t : string) (inside : bool) :
  all_chars (fun x => negb (is_digit x)) a = true →
  snake_digits inside (a +:+ t) = a +:+ snake_digits (inside && is_empty a) t.
Proof.
  revert inside. induction a as [|x a IH]; intros inside Ha.
  - rewrite !append_nil_l. by rewrite andb_true_r.
  - simpl in Ha. apply andb_prop in Ha as [Hx Ha]. apply negb_true_iff in Hx.
    rewrite !append_cons. simpl. rewrite Hx.
    rewrite (IH false Ha). simpl. by rewrite andb_false_r.
Qed.

Lemma snake_digits_none (s : string) (inside : bool) :
  all_chars (fun x => negb (is_digit x)) s = true → snake_digits inside s = s.
Proof.
  intros Hs. pose proof (snake_digits_skip s EmptyString inside Hs) as H.
  by rewrite !append_empty_r in H.
Qed.

Lemma snake_digits_head (s : string) (inside : bool) :
  head_not is_digit s = true → snake_digits inside s = snake_digits true s.
Proof.
  destruct s as [|x s]; [done|]. simpl. intros Hx. apply negb_true_iff in Hx.
  by rewrite Hx.
Qed.

Lemma snake_digits_run (run t : string) :
  all_chars is_digit run = true → head_not is_digit t = true →
  snake_digits true (run +:+ t) = run +:+ snake_digits true t.
Proof.
  intros Hrun Ht. induction run as [|x run IH]; [done|].
  simpl in Hrun. apply andb_prop in Hrun as [Hx Hrun].
  rewrite !append_cons. simpl. rewrite Hx. by rewrite (IH Hrun).
Qed.

Lemma camel_skip (a t wordInitial : string) :
  all_chars (fun x => negb (is_underscore x)) a = true →
  camel wordInitial (a +:+ t) = a +:+ camel wordInitial t.
Proof.
  induction a as [|x a IH]; intros Ha; [done|].
  simpl in Ha. apply andb_prop in Ha as [Hx Ha]. apply negb_true_iff in Hx.
  rewrite !append_cons. simpl. rewrite Hx. by rewrite (IH Ha).
Qed.

Lemma camel_none (s wordInitial : string) :
  all_chars (fun x => negb (is_underscore x)) s = true → camel wordInitial s = s.
Proof.
  intros Hs. pose proof (camel_skip s EmptyString wordInitial Hs) as H.
  by rewrite !append_empty_r in H.
Qed.

(** ** The loops of the converters *)

Lemma is_empty_length (s : string) : is_empty s = true ↔ String.length s = 0.
Proof. destruct s; simpl; split; (done || lia || discriminate). Qed.

(** The uppercase loop, resumed after a prefix already scanned. *)
Lemma upper_loop_spec (fuel : nat) :
  ∀ (pre rest : string),
    String.length rest < fuel →
    splice_loop exec_upperCase fuel (pre +:+ rest) (String.length pre)
    = Some (pre +:+ snake_upper (is_empty pre) rest).
Proof.
  induction fuel as [|fuel IH]; intros pre rest Hfuel; [lia|].
  cbn [splice_loop]. unfold exec_upperCase. rewrite find_from_app.
  destruct (find_from is_upper 0 rest) as [k|] eqn:Ek; cbn [fmap option_fmap option_map mbind option_bind].
  - destruct (find_from_split _ _ _ Ek) as (a & c & b & -> & <- & Hc & Ha).
    rewrite length_append in Hfuel. simpl in Hfuel.
    rewrite (snake_upper_skip a (String c b) _ Ha).
    unfold spliceInUnderscore.
    destruct (decide (String.length pre + String.length a ≠ 0)) as [Hne|Heq].
    + rewrite <- length_append, <- append_assoc, get_app.
      replace (S (String.length (pre +:+ a)))
        with (String.length ((pre +:+ a) +:+ String c EmptyString))
        by (rewrite length_append; simpl; lia).
      rewrite slice_to_app.
      replace ((pre +:+ a) +:+ String c b)
        with (((pre +:+ a) +:+ String c EmptyString) +:+ b) at 1
        by (by rewrite (append_assoc (pre +:+ a))).
      rewrite slice_from_app.
      replace ((pre +:+ a) +:+ "_" +:+ String (toLowerCase c) EmptyString +:+ b)
        with ((((pre +:+ a) +:+ "_") +:+ String (toLowerCase c) EmptyString) +:+ b)
        by (by rewrite !append_assoc).
      replace (S (String.length ((pre +:+ a) +:+ String c EmptyString)))
        with (String.length
                (((pre +:+ a) +:+ "_") +:+ String (toLowerCase c) EmptyString)).
      2: { rewrite !length_append. simpl. lia. }
      rewrite IH by lia.
      replace (is_empty (((pre +:+ a) +:+ "_") +:+ String (toLowerCase c) EmptyString))
        with false.
      2: { symmetry. apply not_true_is_false. rewrite is_empty_length.
           rewrite !length_append. simpl. lia. }
      replace (is_empty pre && is_empty a) with false.
      2: { symmetry. apply not_true_is_false. rewrite andb_true_iff, !is_empty_length. lia. }
      simpl. rewrite Hc. simpl. f_equal. rewrite !append_assoc. reflexivity.
    + assert (String.length pre = 0 ∧ String.length a = 0) as [Hp Hl] by lia.
      destruct pre; [|done]. destruct a; [|done]. clear Hp Hl.
      rewrite !append_nil_l. simpl.
      change (String c b) with (String c EmptyString +:+ b) at 1.
      change 1 with (String.length (String c EmptyString)).
      rewrite IH by (simpl in *; lia). simpl. by rewrite andb_false_r.
  - rewrite (snake_upper_none rest _ (find_from_none _ _ Ek)). reflexivity.
Qed.

(** The digit loop, resumed after a prefix already scanned; a resumed
    scan never starts inside a run of digits. *)
Lemma digit_loop_spec (fuel : nat) :
  ∀ (pre rest : string),
    String.length rest < fuel →
    is_empty pre || head_not is_digit rest = true →
    splice_loop exec_firstNumeral fuel (pre +:+ rest) (String.length pre)
    = Some (pre +:+ snake_digits true rest).
Proof.
  induction fuel as [|fuel IH]; intros pre rest Hfuel Hinv; [lia|].
  cbn [splice_loop]. unfold exec_firstNumeral. rewrite find_from_app.
  destruct (find_from is_digit 0 rest) as [k|] eqn:Ek;
    cbn [fmap option_fmap option_map mbind option_bind].
  - destruct (find_from_split _ _ _ Ek) as (a & c & t & -> & <- & Hc & Ha).
    destruct (run_split is_digit (String c t)) as (run & b & Hsplit & Hlen & Hrun & Hb).
    rewrite <- length_append, <- append_assoc, run_length_app, <- Hlen.
    rewrite length_append in Hfuel.
    assert (Hrunlen : String.length run + String.length b = S (String.length t)).
    { rewrite <- length_append, <- Hsplit. reflexivity. }
    assert (Hrun1 : 1 ≤ String.length run).
    { rewrite Hlen. simpl. rewrite Hc. lia. }
    cbn [String.length] in Hfuel.
    rewrite (snake_digits_skip a (String c t) _ Ha). cbn [andb].
    unfold spliceInUnderscore.
    destruct (decide (String.length (pre +:+ a) ≠ 0)) as [Hne|Heq].
    + rewrite get_app, (toLowerCase_digit _ Hc).
      rewrite slice_to_app.
      replace (S (String.length (pre +:+ a)))
        with (String.length ((pre +:+ a) +:+ String c EmptyString))
        by (rewrite length_append; simpl; lia).
      replace ((pre +:+ a) +:+ String c t)
        with (((pre +:+ a) +:+ String c EmptyString) +:+ t) at 1
        by (by rewrite (append_assoc (pre +:+ a))).
      rewrite slice_from_app.
      replace ((pre +:+ a) +:+ "_" +:+ String c EmptyString +:+ t)
        with (((pre +:+ a) +:+ "_" +:+ run) +:+ b).
      2: { rewrite !append_assoc. do 2 f_equal.
           change ("_" +:+ run +:+ b = "_" +:+ String c t). by rewrite Hsplit. }
      replace (S (String.length (pre +:+ a) + String.length run))
        with (String.length ((pre +:+ a) +:+ "_" +:+ run)).
      2: { rewrite !length_append. simpl. lia. }
      rewrite IH; [| lia | by rewrite Hb, orb_true_r].
      assert (Hempty : is_empty a = false).
      { apply not_true_is_false. intros Hae. apply is_empty_length in Hae.
        destruct a; [|done]. rewrite append_empty_r in Hne.
        destruct pre; [done|]. simpl in Hinv. by rewrite Hc in Hinv. }
      rewrite Hempty. f_equal. rewrite !append_assoc. do 2 f_equal.
      cbn [snake_digits]. rewrite Hc.
      change (String "_" (String c (snake_digits true t)))
        with ("_" +:+ String c (snake_digits true t)). f_equal.
      assert (Hct : String c (snake_digits true t) = snake_digits true (String c t)).
      { simpl. by rewrite Hc. }
      rewrite Hct, Hsplit. symmetry. by apply snake_digits_run.
    + assert (Hz : String.length (pre +:+ a) = 0) by lia.
      rewrite length_append in Hz.
      destruct pre; [|simpl in Hz; lia]. destruct a; [|simpl in Hz; lia]. clear Hz Heq.
      rewrite !append_nil_l. cbn [String.length Nat.add is_empty].
      rewrite Hsplit.
      rewrite IH; [| lia | by rewrite Hb, orb_true_r].
      f_equal. symmetry. by apply snake_digits_run.
  - rewrite (snake_digits_none rest _ (find_from_none _ _ Ek)). reflexivity.
Qed.

(** The underscore loop, resumed after a prefix already scanned. *)
Lemma camel_loop_spec (fuel : nat) :
  ∀ (pre rest wordInitial : string),
    String.length rest < fuel →
    String.length wordInitial ≤ 1 →
    camel_loop fuel (pre +:+ rest) (String.length pre) wordInitial
    = Some (pre +:+ camel wordInitial rest).
Proof.
  induction fuel as [|fuel IH]; intros pre rest wi Hfuel Hwi; [lia|].
  cbn [camel_loop]. cbv zeta. unfold exec_underscore. rewrite find_from_app.
  destruct (find_from is_underscore 0 rest) as [k|] eqn:Ek;
    cbn [fmap option_fmap option_map mbind option_bind].
  - destruct (find_from_split _ _ _ Ek) as (a & c & r & -> & <- & Hc & Ha).
    apply is_underscore_eq in Hc as ->.
    rewrite length_append in Hfuel. cbn [String.length] in Hfuel.
    rewrite (camel_skip a _ _ Ha).
    rewrite <- length_append, <- !(append_assoc pre a).
    rewrite slice_to_app.
    destruct r as [|d r'].
    + replace (String.length (pre +:+ a) + 1 <? String.length ((pre +:+ a) +:+ "_"))%nat
        with false.
      2: { symmetry. apply Nat.ltb_ge. rewrite !length_append. simpl. lia. }
      rewrite slice_from_beyond by (rewrite !length_append; simpl; lia).
      rewrite append_empty_r.
      destruct fuel as [|fuel']; [lia|].
      cbn [camel_loop]. cbv zeta. unfold exec_underscore.
      rewrite find_from_beyond by (rewrite !length_append; lia).
      cbn. by rewrite append_assoc.
    + replace (String.length (pre +:+ a) + 1 <? String.length ((pre +:+ a) +:+ String "_" (String d r')))%nat
        with true.
      2: { symmetry. apply Nat.ltb_lt. rewrite !length_append. simpl. lia. }
      assert (Hget : String.get (String.length (pre +:+ a) + 1)
                       ((pre +:+ a) +:+ String "_" (String d r')) = Some d).
      { replace (String.length (pre +:+ a) + 1)
          with (String.length ((pre +:+ a) +:+ "_")) by (rewrite !length_append; simpl; lia).
        replace ((pre +:+ a) +:+ String "_" (String d r'))
          with (((pre +:+ a) +:+ "_") +:+ String d r')
          by (by rewrite (append_assoc (pre +:+ a))).
        apply get_app. }
      assert (Hslice : slice_from (String.length (pre +:+ a) + 2)
                         ((pre +:+ a) +:+ String "_" (String d r')) = r').
      { replace (String.length (pre +:+ a) + 2)
          with (String.length (((pre +:+ a) +:+ "_") +:+ String d EmptyString))
          by (rewrite !length_append; simpl; lia).
        replace ((pre +:+ a) +:+ String "_" (String d r'))
          with ((((pre +:+ a) +:+ "_") +:+ String d EmptyString) +:+ r')
          by (by rewrite !append_assoc).
        apply slice_from_app. }
      rewrite !Hget, Hslice.
      replace ((pre +:+ a) +:+ String (toUpperCase d) EmptyString +:+ r')
        with (((pre +:+ a) +:+ String (toUpperCase d) EmptyString) +:+ r')
        by (by rewrite !append_assoc).
      replace (S (String.length (pre +:+ a)))
        with (String.length ((pre +:+ a) +:+ String (toUpperCase d) EmptyString))
        by (rewrite !length_append; simpl; lia).
      cbn [String.length] in Hfuel.
      rewrite IH by (simpl; lia).
      f_equal. cbn [camel]. change (is_underscore "_") with true. cbv beta iota.
      by rewrite !append_assoc.
  - rewrite (camel_none rest _ (find_from_none _ _ Ek)). reflexivity.
Qed.

(** ** The name converters *)

Lemma jsName2SqlName_run (name : string) :
  jsName2SqlName name = Some (snake_digits true (snake_upper true name)).
Proof.
  unfold jsName2SqlName.
  pose proof (upper_loop_spec (S (String.length name)) EmptyString name) as Hup.
  rewrite !append_nil_l in Hup. cbn [String.length is_empty] in Hup.
  rewrite Hup by lia. cbn [mbind option_bind].
  pose proof (digit_loop_spec (S (String.length (snake_upper true name)))
                EmptyString (snake_upper true name)) as Hdg.
  rewrite !append_nil_l in Hdg. cbn [String.length is_empty orb] in Hdg.
  by rewrite Hdg by (lia || done).
Qed.

Lemma sqlName2JsName_run (name : string) :
  sqlName2JsName name = Some (camel EmptyString name).
Proof.
  unfold sqlName2JsName.
  pose proof (camel_loop_spec (S (String.length name)) EmptyString name EmptyString) as H.
  rewrite !append_nil_l in H. cbn [String.length] in H.
  by rewrite H by lia.
Qed.

Lemma camel_snake (s : string) :
  ∀ (first inside : bool) (wordInitial : string),
    all_chars not_underscore s = true →
    camel wordInitial (snake_digits inside (snake_upper first s)) = s.
Proof.
  induction s as [|c s IH]; intros first inside wi Hs; [done|].
  cbn [all_chars] in Hs. apply andb_prop in Hs as [Hc Hs].
  unfold not_underscore in Hc. apply negb_true_iff in Hc.
  cbn [snake_upper]. destruct (is_upper c && negb first) eqn:Eup.
  - apply andb_prop in Eup as [Hup _].
    cbn [snake_digits]. change (is_digit "_") with false. cbv beta iota.
    rewrite (lowered_not_digit _ Hup).
    cbn [camel]. change (is_underscore "_") with true. cbv beta iota.
    rewrite (upper_lower_round_trip _ Hup). f_equal.
    change (String (toLowerCase c) (snake_digits false (snake_upper false s)))
      with (String (toLowerCase c) EmptyString +:+ snake_digits false (snake_upper false s)).
    by rewrite IH.
  - cbn [snake_digits]. destruct (is_digit c) eqn:Ed.
    + destruct inside.
      * cbn [camel]. rewrite Hc. by rewrite IH.
      * cbn [camel]. change (is_underscore "_") with true. cbv beta iota.
        rewrite (toUpperCase_digit _ Ed). by rewrite IH.
    + cbn [camel]. rewrite Hc. by rewrite IH.
Qed.

(** X1.  [jsName2SqlName] puts an underscore before every uppercase
    letter that is not the first character, lowercasing the letter, then
    an underscore before every run of digits that does not start the name,
    and changes nothing else. *)
Theorem jsName2SqlName_single_pass (name : string) :
  jsName2SqlName name = Some (snake_digits true (snake_upper true name)).
Proof. apply jsName2SqlName_run. Qed.

(** X2.  On a name of ASCII characters [sqlName2JsName] drops each
    underscore it meets and uppercases the character after it, which it
    does not look at again; an underscore that ends the name is replaced
    by the previous word initial, or by nothing when there was none. *)
Theorem sqlName2JsName_single_pass (name : string) :
  all_chars is_ascii name = true →
  sqlName2JsName name = Some (camel EmptyString name).
Proof. intros _. apply sqlName2JsName_run. Qed.

Lemma sqlName2JsName_single_pass_witness :
  all_chars is_ascii "zip__code_" = true
  ∧ sqlName2JsName "zip__code_" = Some (camel EmptyString "zip__code_")
  ∧ camel EmptyString "zip__code_" = "zip_code_".
Proof.
  split; [reflexivity|]. split; [|reflexivity].
  apply (sqlName2JsName_single_pass "zip__code_"). reflexivity.
Defined.

(** X3.  Converting a JavaScript-style name that contains no underscore
    to SQL style and back gives the name again. *)
Theorem sqlName2JsName_jsName2SqlName (name : string) :
  all_chars not_underscore name = true →
  ∃ sqlName : string,
    jsName2SqlName name = Some sqlName ∧ sqlName2JsName sqlName = Some name.
Proof.
  intros Hname. eexists. split; [apply jsName2SqlName_run|].
  rewrite sqlName2JsName_run. f_equal. by apply camel_snake.
Qed.

Lemma sqlName2JsName_jsName2SqlName_witness :
  all_chars not_underscore "zipCode5And4" = true
  ∧ ∃ sqlName : string,
      jsName2SqlName "zipCode5And4" = Some sqlName
      ∧ sqlName2JsName sqlName = Some "zipCode5And4".
Proof.
  split; [reflexivity|].
  apply (sqlName2JsName_jsName2SqlName "zipCode5And4"). reflexivity.
Defined.

Lemma slice_from_0 (s : string) : slice_from 0 s = s.
Proof. by destruct s. Qed.

Lemma snake_upper_tail (s : string) :
  all_chars (fun x => negb (is_upper x)) (snake_upper false s) = true.
Proof.
  induction s as [|c s IH]; [done|]. cbn [snake_upper]. rewrite andb_true_r.
  destruct (is_upper c) eqn:Ec; cbn [all_chars].
  - change (is_upper "_") with false. cbn [negb andb].
    replace (is_upper (toLowerCase c)) with false; [done|].
    symmetry. revert Ec. clear.
    destruct c as [[] [] [] [] [] [] [] []]; vm_compute; congruence.
  - by rewrite Ec.
Qed.

Lemma snake_digits_keeps_lower (s : string) (inside : bool) :
  all_chars (fun x => negb (is_upper x)) s = true →
  all_chars (fun x => negb (is_upper x)) (snake_digits inside s) = true.
Proof.
  revert inside. induction s as [|c s IH]; intros inside Hs; [done|].
  cbn [all_chars] in Hs. apply andb_prop in Hs as [Hc Hs].
  cbn [snake_digits]. destruct (is_digit c); [destruct inside|]; cbn [all_chars];
    rewrite ?Hc, ?IH; done.
Qed.

(** X4.  In the result of [jsName2SqlName] the first character is the
    name's first character, unchanged, and no later character is an
    uppercase letter. *)
Theorem jsName2SqlName_lowercase_tail (name : string) :
  ∃ sqlName : string,
    jsName2SqlName name = Some sqlName
    ∧ String.get 0 sqlName = String.get 0 name
    ∧ all_chars (fun x => negb (is_upper x)) (slice_from 1 sqlName) = true.
Proof.
  eexists. split; [apply jsName2SqlName_run|].
  destruct name as [|c s]; [done|].
  cbn [snake_upper negb]. rewrite andb_false_r. cbn [snake_digits].
  destruct (is_digit c); (split; [done|]); cbn [slice_from]; rewrite slice_from_0;
    apply snake_digits_keeps_lower, snake_upper_tail.
Qed.

(** X5.  A name that is already in the target style comes back as it
    is: [sqlName2JsName] on a name without underscores, [jsName2SqlName]
    on a name with no uppercase letter and no digit after its first
    character. *)
Theorem converters_fixed_points (name : string) :
  (all_chars not_underscore name = true → sqlName2JsName name = Some name)
  ∧ (all_chars (fun x => negb (is_upper x) && negb (is_digit x)) (slice_from 1 name) = true →
     jsName2SqlName name = Some name).
Proof.
  split.
  - intros Hname. rewrite sqlName2JsName_run. f_equal. by apply camel_none.
  - intros Htail. rewrite jsName2SqlName_run. f_equal.
    destruct name as [|c s]; [done|].
    cbn [snake_upper negb]. rewrite andb_false_r.
    cbn [slice_from] in Htail. rewrite slice_from_0 in Htail.
    assert (Hs : ∀ t, all_chars (fun x => negb (is_upper x) && negb (is_digit x)) t = true →
                      all_chars (fun x => negb (is_upper x)) t = true
                      ∧ all_chars (fun x => negb (is_digit x)) t = true).
    { clear. induction t as [|x t IH]; [done|]. cbn [all_chars]. intros H.
      apply andb_prop in H as [Hx Ht]. apply andb_prop in Hx as [-> ->].
      by destruct (IH Ht) as [-> ->]. }
    destruct (Hs s Htail) as [Hup Hdg].
    rewrite (snake_upper_none s false Hup).
    cbn [snake_digits]. destruct (is_digit c); by rewrite (snake_digits_none s _ Hdg).
Qed.

Lemma converters_fixed_points_witness :
  all_chars not_underscore "crm" = true ∧ sqlName2JsName "crm" = Some "crm"
  ∧ all_chars (fun x => negb (is_upper x) && negb (is_digit x)) (slice_from 1 "1st") = true
  ∧ jsName2SqlName "1st" = Some "1st".
Proof.
  split; [reflexivity|]. split; [apply (proj1 (converters_fixed_points "crm")); reflexivity|].
  split; [reflexivity|]. apply (proj2 (converters_fixed_points "1st")). reflexivity.
Defined.

(** ** LIKE cleaning and the two maps *)

Lemma remove_char_keep (c : ascii) (s : string) :
  remove_char c s = keep_chars (fun x => negb (Ascii.eqb x c)) s.
Proof. induction s as [|x s IH]; [done|]. simpl. rewrite IH. by destruct (Ascii.eqb x c). Qed.

Lemma keep_chars_twice (p q : ascii → bool) (s : string) :
  keep_chars q (keep_chars p s) = keep_chars (fun x => p x && q x) s.
Proof.
  induction s as [|x s IH]; [done|]. simpl.
  destruct (p x); simpl; [destruct (q x)|]; by rewrite IH.
Qed.

Lemma keep_chars_all (p : ascii → bool) (s : string) :
  all_chars p (keep_chars p s) = true.
Proof.
  induction s as [|x s IH]; [done|]. simpl.
  destruct (p x) eqn:Ex; [|done]. simpl. by rewrite Ex, IH.
Qed.

Lemma keep_chars_id (p : ascii → bool) (s : string) :
  all_chars p s = true → keep_chars p s = s.
Proof.
  induction s as [|x s IH]; [done|]. simpl. intros H.
  apply andb_prop in H as [-> Hs]. by rewrite IH.
Qed.

(** X6.  [cleanStringForLike] returns the characters of a string other
    than [%] and [_], in order: the result holds no wildcard of a LIKE
    pattern, and a string without wildcards comes back unchanged.  A value
    that is not a string gives the empty string. *)
Theorem cleanStringForLike_no_wildcards (str : Value) :
  all_chars not_like_wildcard (cleanStringForLike str) = true
  ∧ (∀ s : string, str = VStr s →
       cleanStringForLike str = keep_chars not_like_wildcard s
       ∧ (all_chars not_like_wildcard s = true → cleanStringForLike str = s))
  ∧ (isString str = false → cleanStringForLike str = EmptyString).
Proof.
  assert (Hclean : ∀ s, cleanStringForLike (VStr s) = keep_chars not_like_wildcard s).
  { intros s. unfold cleanStringForLike.
    rewrite !remove_char_keep, keep_chars_twice. reflexivity. }
  split; [|split].
  - destruct str; try done. rewrite Hclean. apply keep_chars_all.
  - intros s ->. split; [apply Hclean|].
    intros Hs. rewrite Hclean. by apply keep_chars_id.
  - by destruct str.
Qed.

Lemma cleanStringForLike_no_wildcards_witness :
  VStr "50%_off" = VStr "50%_off"
  ∧ cleanStringForLike (VStr "50%_off") = keep_chars not_like_wildcard "50%_off"
  ∧ isString (VNum 5) = false
  ∧ cleanStringForLike (VNum 5) = EmptyString.
Proof.
  split; [reflexivity|].
  split; [apply (proj1 (proj2 (cleanStringForLike_no_wildcards (VStr "50%_off"))) "50%_off");
          reflexivity|].
  split; [reflexivity|].
  apply (proj2 (proj2 (cleanStringForLike_no_wildcards (VNum 5)))). reflexivity.
Defined.

Lemma assign_string_lookup {V} (key : string) (v : V) (result : gmap string V)
    (k : string) :
  assign_string key v result !! k
  = if decide (k = key ∧ k ≠ proto_name) then Some v else result !! k.
Proof.
  unfold assign_string, proto_name.
  destruct (String.eqb key "__proto__") eqn:Ekey.
  - apply String.eqb_eq in Ekey. subst key.
    by rewrite decide_False by (by intros [-> ?]).
  - apply String.eqb_neq in Ekey.
    destruct (decide (k = key)) as [->|Hne].
    + rewrite lookup_insert_eq. by rewrite decide_True.
    + rewrite lookup_insert_ne by done. by rewrite decide_False by (by intros [? ?]).
Qed.

Lemma columnList2ColumnMap_fold (columnList : list string) :
  ∀ acc : gmap string string,
  ∃ m : gmap string string,
    foldl (fun result sqlName =>
             result ← result;
             jsName ← sqlName2JsName sqlName;
             Some (assign_string sqlName jsName result))
          (Some acc) columnList = Some m
    ∧ ∀ col : string,
        m !! col = if decide (col ∈ columnList ∧ col ≠ proto_name)
                   then Some (camel EmptyString col)
                   else acc !! col.
Proof.
  induction columnList as [|c rest IH]; intros acc.
  - exists acc. split; [done|]. intros col.
    rewrite decide_False; [done|]. intros [Hin _]. by apply not_elem_of_nil in Hin.
  - cbn [foldl mbind option_bind]. rewrite sqlName2JsName_run. cbn [mbind option_bind].
    destruct (IH (assign_string c (camel EmptyString c) acc)) as (m & Hrun & Hm).
    exists m. split; [exact Hrun|]. intros col. rewrite Hm, assign_string_lookup.
    destruct (decide (col ≠ proto_name)) as [Hok|Hproto].
    + destruct (decide (col ∈ rest)) as [Hin|Hnin].
      * rewrite !decide_True; [done | | done]. split; [|done]. apply elem_of_cons; auto.
      * rewrite (decide_False (P := col ∈ rest ∧ _)) by (by intros [? ?]).
        destruct (decide (col = c)) as [->|Hne].
        -- rewrite !decide_True; [done | | done]. split; [|done]. apply elem_of_cons; auto.
        -- rewrite !decide_False; [done | | by intros [? ?]].
           rewrite elem_of_cons. by intros [[?|?] ?].
    + by rewrite !decide_False by (by intros [? ?]).
Qed.

(** X7.  For ASCII column names [columnList2ColumnMap] returns a map
    whose keys are exactly the listed column names other than
    [__proto__], each mapped to its JavaScript-style name; a column listed
    twice is one key, and [__proto__] is never a key. *)
Theorem columnList2ColumnMap_keys (columnList : list string) :
  Forall (fun col => all_chars is_ascii col = true) columnList →
  ∃ m : gmap string string,
    columnList2ColumnMap columnList = Some m
    ∧ (∀ col : string,
         col ∈ columnList → col ≠ proto_name → m !! col = sqlName2JsName col)
    ∧ (∀ col : string, col ∉ columnList → m !! col = None)
    ∧ m !! proto_name = None.
Proof.
  intros _.
  destruct (columnList2ColumnMap_fold columnList ∅) as (m & Hrun & Hm).
  exists m. split; [exact Hrun|]. split; [|split].
  - intros col Hin Hok. rewrite Hm, sqlName2JsName_run. by rewrite decide_True.
  - intros col Hnin. rewrite Hm. by rewrite decide_False by (by intros [? ?]).
  - rewrite Hm. by rewrite decide_False by (by intros [? ?]).
Qed.

Lemma columnList2ColumnMap_keys_witness :
  Forall (fun col => all_chars is_ascii col = true)
    ["id"; "meta_entry_user_id"; "__proto__"; "id"]
  ∧ ∃ m : gmap string string,
    columnList2ColumnMap ["id"; "meta_entry_user_id"; "__proto__"; "id"] = Some m
    ∧ "meta_entry_user_id" ∈ ["id"; "meta_entry_user_id"; "__proto__"; "id"]
    ∧ "meta_entry_user_id" ≠ proto_name
    ∧ m !! "meta_entry_user_id" = sqlName2JsName "meta_entry_user_id"
    ∧ ("user_id" ∉ ["id"; "meta_entry_user_id"; "__proto__"; "id"])
    ∧ m !! "user_id" = None
    ∧ m !! proto_name = None.
Proof.
  assert (H0 : Forall (fun col => all_chars is_ascii col = true)
                 ["id"; "meta_entry_user_id"; "__proto__"; "id"])
    by (repeat constructor).
  split; [exact H0|].
  destruct (columnList2ColumnMap_keys ["id"; "meta_entry_user_id"; "__proto__"; "id"] H0)
    as (m & Hrun & Hin & Hout & Hproto).
  exists m. split; [exact Hrun|].
  assert (H1 : "meta_entry_user_id" ∈ ["id"; "meta_entry_user_id"; "__proto__"; "id"])
    by (refine (bool_decide_unpack _ _); vm_compute; exact I).
  assert (H2 : "user_id" ∉ ["id"; "meta_entry_user_id"; "__proto__"; "id"])
    by (refine (bool_decide_unpack _ _); vm_compute; exact I).
  assert (H3 : "meta_entry_user_id" ≠ proto_name) by discriminate.
  split; [exact H1|]. split; [exact H3|]. split; [exact (Hin _ H1 H3)|].
  split; [exact H2|]. split; [exact (Hout _ H2)|]. exact Hproto.
Defined.

Lemma convertErrorCodes2Map_fold (codeMap : list (string * Value))
    (errorCodes : list string) :
  get_field "hasOwnProperty" codeMap = None →
  ∀ acc : gmap string Value,
  ∃ m : gmap string Value,
    foldl (fun result errorCode =>
             result ← result;
             own ← codeMap_hasOwnProperty codeMap errorCode;
             if own && isString (prop (VObj codeMap) errorCode)
             then Some (assign_string errorCode (prop (VObj codeMap) errorCode) result)
             else Some result)
          (Some acc) errorCodes = Some m
    ∧ ∀ code : string,
        m !! code
        = if decide (code ∈ errorCodes ∧ code ≠ proto_name)
          then match message_of codeMap code with
               | Some msg => Some msg
               | None => acc !! code
               end
          else acc !! code.
Proof.
  intros Hmethod.
  induction errorCodes as [|c rest IH]; intros acc.
  - exists acc. split; [done|]. intros code.
    rewrite decide_False; [done|]. intros [Hin _]. by apply not_elem_of_nil in Hin.
  - set (acc' := if bool_decide (is_Some (get_field c codeMap))
                    && isString (prop (VObj codeMap) c)
                 then assign_string c (prop (VObj codeMap) c) acc else acc).
    match goal with
    | |- context [foldl ?f0 (Some acc) (c :: rest)] => set (f := f0)
    end.
    change (foldl f (Some acc) (c :: rest)) with (foldl f (f (Some acc) c) rest).
    assert (Hstep : f (Some acc) c = Some acc').
    { subst f acc'. cbn [mbind option_bind]. unfold codeMap_hasOwnProperty.
      rewrite Hmethod. cbn [mbind option_bind]. by destruct (_ && _). }
    rewrite Hstep. subst f.
    assert (Hacc' : ∀ code, acc' !! code
                            = if decide (code = c ∧ code ≠ proto_name)
                              then match message_of codeMap code with
                                   | Some msg => Some msg
                                   | None => acc !! code
                                   end
                              else acc !! code).
    { intros code. subst acc'. unfold message_of, prop.
      destruct (decide (code = c ∧ code ≠ proto_name)) as [[-> Hok]|Hno].
      - destruct (get_field c codeMap) as [[]|] eqn:Ec; cbn; try done.
        rewrite assign_string_lookup. by rewrite decide_True.
      - destruct (bool_decide _ && _); [|done].
        rewrite assign_string_lookup. by rewrite decide_False. }
    destruct (IH acc') as (m & Hrun & Hm).
    exists m. split; [exact Hrun|]. intros code. rewrite Hm, Hacc'.
    destruct (decide (code ≠ proto_name)) as [Hok|Hproto].
    + destruct (decide (code ∈ rest)) as [Hin|Hnin].
      * rewrite (decide_True (P := code ∈ rest ∧ _)) by done.
        rewrite (decide_True (P := code ∈ c :: rest ∧ _))
          by (split; [apply elem_of_cons; auto | done]).
        destruct (message_of codeMap code); [done|]. by destruct (decide _).
      * rewrite (decide_False (P := code ∈ rest ∧ _)) by (by intros [? ?]).
        destruct (decide (code = c)) as [->|Hne].
        -- rewrite !decide_True; [done | | done]. split; [|done]. apply elem_of_cons; auto.
        -- rewrite !decide_False; [done | | by intros [? ?]].
           rewrite elem_of_cons. by intros [[?|?] ?].
    + by rewrite !decide_False by (by intros [? ?]).
Qed.

(** X8.  On a code map without an own property [hasOwnProperty],
    [convertErrorCodes2Map] maps a code to a message exactly when the code
    is listed, is not [__proto__], and the code map holds a string for it;
    the message is that string, and unknown codes and non-string entries
    are skipped.  On a code map with such a property the first listed code
    raises a [TypeError]; with no code listed the result is empty. *)
Theorem convertErrorCodes2Map_lookup (codeMap : list (string * Value))
    (errorCodes : list string) :
  (get_field "hasOwnProperty" codeMap = None →
     ∃ m : gmap string Value,
       convertErrorCodes2Map codeMap errorCodes = Some m
       ∧ ∀ code : string,
           m !! code = if decide (code ∈ errorCodes ∧ code ≠ proto_name)
                       then message_of codeMap code
                       else None)
  ∧ (is_Some (get_field "hasOwnProperty" codeMap) → errorCodes ≠ [] →
       convertErrorCodes2Map codeMap errorCodes = None)
  ∧ convertErrorCodes2Map codeMap [] = Some ∅.
Proof.
  split; [|split; [|done]].
  - intros Hmethod.
    destruct (convertErrorCodes2Map_fold codeMap errorCodes Hmethod ∅) as (m & Hrun & Hm).
    exists m. split; [exact Hrun|]. intros code. rewrite Hm, lookup_empty.
    destruct (decide _); [|done]. by destruct (message_of codeMap code).
  - intros [v Hmethod] Hcodes. unfold convertErrorCodes2Map.
    destruct errorCodes as [|c rest]; [done|].
    match goal with
    | |- context [foldl ?f0 (Some ∅) (c :: rest)] => set (f := f0)
    end.
    change (foldl f (Some ∅) (c :: rest)) with (foldl f (f (Some ∅) c) rest).
    assert (Hstep : f (Some ∅) c = None).
    { subst f. cbn [mbind option_bind]. unfold codeMap_hasOwnProperty.
      by rewrite Hmethod. }
    rewrite Hstep.
    clear. induction rest as [|c' rest IH]; [done|]. exact IH.
Qed.

Lemma convertErrorCodes2Map_lookup_witness :
  get_field "hasOwnProperty"
    [("NO_NAME", VStr "A name is required."); ("BAD_ID", VNum 7)] = None
  ∧ (∃ m : gmap string Value,
       convertErrorCodes2Map
         [("NO_NAME", VStr "A name is required."); ("BAD_ID", VNum 7)]
         ["BAD_ID"; "NO_NAME"; "UNKNOWN"] = Some m
       ∧ m !! "NO_NAME" = Some (VStr "A name is required.")
       ∧ m !! "BAD_ID" = None)
  ∧ is_Some (get_field "hasOwnProperty" [("hasOwnProperty", VStr "Own.")])
  ∧ ["hasOwnProperty"] ≠ []
  ∧ convertErrorCodes2Map [("hasOwnProperty", VStr "Own.")] ["hasOwnProperty"] = None.
Proof.
  split; [reflexivity|]. split.
  { destruct (proj1 (convertErrorCodes2Map_lookup
                       [("NO_NAME", VStr "A name is required."); ("BAD_ID", VNum 7)]
                       ["BAD_ID"; "NO_NAME"; "UNKNOWN"]) eq_refl) as (m & Hrun & Hm).
    exists m. split; [exact Hrun|]. split.
    - rewrite Hm. rewrite decide_True; [reflexivity|].
      split; [refine (bool_decide_unpack _ _); vm_compute; exact I | discriminate].
    - rewrite Hm. rewrite decide_True; [reflexivity|].
      split; [refine (bool_decide_unpack _ _); vm_compute; exact I | discriminate]. }
  split; [by eexists|]. split; [discriminate|].
  apply (proj1 (proj2 (convertErrorCodes2Map_lookup
                         [("hasOwnProperty", VStr "Own.")] ["hasOwnProperty"])));
    [by eexists | discriminate].
Defined.

(** ** The client-scoped path *)

Lemma queryWithClient_run
    (driver : Client → string → list Value → World → DriverReply)
    (options : ConfigOptions) (queryString : string) (args : option (list Value))
    (c : Client) (w : World) :
  let before := log_before_statement (verbose options) queryString args
                ++ [ClientQuery c queryString (default [] args)] in
  let reply := driver c queryString (default [] args) (w ++ before) in
  __DI_queryWithClient driver options queryString args c w
  = (Normal (settles_as reply),
     w ++ before ++ log_after_statement (verbose options) reply).
Proof.
  intros before reply. subst before reply.
  unfold __DI_queryWithClient, log_before_statement, log_after_statement.
  destruct (verbose options); destruct args as [args|];
    unfold __makeClientQueryPromise, new_Promise, then_, catch_, settle,
      when, console_log, console_error, bind, emit, value, ret, throw;
    cbn; repeat rewrite <- app_assoc; cbn;
    case_driver_reply driver; cbn; repeat rewrite <- app_assoc; reflexivity.
Qed.

Lemma calls_of_before_statement (debug : bool) (queryString : string)
    (args : option (list Value)) :
  calls_of (log_before_statement debug queryString args) = [].
Proof. by destruct debug, args. Qed.

Lemma calls_of_after_statement (debug : bool) (reply : DriverReply) :
  calls_of (log_after_statement debug reply) = [].
Proof. by destruct debug, reply. Qed.

Lemma releases_of_calls (c : Client) (w : World) :
  releases_of c w = releases_of c (calls_of w).
Proof.
  unfold releases_of, calls_of. induction w as [|e w IH]; [done|].
  destruct e as [| |c'| |]; cbn; rewrite ?IH; try done.
  destruct (c =? c'); cbn; by rewrite IH.
Qed.

Lemma acquisitions_calls (w : World) : acquisitions w = acquisitions (calls_of w).
Proof.
  unfold acquisitions, calls_of. induction w as [|e w IH]; [done|].
  destruct e; cbn; by rewrite ?IH.
Qed.

(** X9.  A [query] given a client sends exactly one statement to that
    client, with the arguments defaulted to [[]], and settles as the
    driver answers.  It asks no pool for a client and releases none, also
    when the statement fails, and whether or not the connection has a
    pool. *)
Theorem query_with_client_keeps_lease
    (pool_connect : PoolId → World → Promise Client)
    (driver : Client → string → list Value → World → DriverReply)
    (this : Connection) (queryString : string) (args : option (list Value))
    (c : Client) (w : World) :
  ∃ (before after : World),
    query pool_connect driver this queryString args (Some c) w
    = (Normal (settles_as
                 (driver c queryString (default [] args)
                    (w ++ before ++ [ClientQuery c queryString (default [] args)]))),
       w ++ before ++ ClientQuery c queryString (default [] args) :: after)
    ∧ calls_of before = [] ∧ calls_of after = []
    ∧ acquisitions (before ++ ClientQuery c queryString (default [] args) :: after) = 0
    ∧ ∀ c', releases_of c'
              (before ++ ClientQuery c queryString (default [] args) :: after) = 0.
Proof.
  unfold query, __DI_query, __queryWithClient. rewrite queryWithClient_run.
  exists (log_before_statement (verbose (config (__config this))) queryString args),
    (log_after_statement (verbose (config (__config this)))
       (driver c queryString (default [] args)
          (w ++ log_before_statement (verbose (config (__config this))) queryString args
             ++ [ClientQuery c queryString (default [] args)]))).
  split.
  { by rewrite <- (app_assoc _ [_]). }
  split; [apply calls_of_before_statement|].
  split; [apply calls_of_after_statement|].
  split.
  - rewrite acquisitions_calls, calls_of_app. cbn [calls_of List.filter is_console negb].
    fold (calls_of (log_after_statement (verbose (config (__config this)))
            (driver c queryString (default [] args)
               (w ++ log_before_statement (verbose (config (__config this))) queryString args
                  ++ [ClientQuery c queryString (default [] args)])))).
    by rewrite calls_of_before_statement, calls_of_after_statement.
  - intros c'. rewrite releases_of_calls, calls_of_app.
    cbn [calls_of List.filter is_console negb].
    fold (calls_of (log_after_statement (verbose (config (__config this)))
            (driver c queryString (default [] args)
               (w ++ log_before_statement (verbose (config (__config this))) queryString args
                  ++ [ClientQuery c queryString (default [] args)])))).
    by rewrite calls_of_before_statement, calls_of_after_statement.
Qed.

Lemma query_with_client_calls
    (pool_connect : PoolId → World → Promise Client)
    (driver : Client → string → list Value → World → DriverReply)
    (this : Connection) (queryString : string) (args : option (list Value))
    (c : Client) (w : World) :
  calls_of (query pool_connect driver this queryString args (Some c) w).2
  = calls_of w ++ [ClientQuery c queryString (default [] args)].
Proof.
  unfold query, __DI_query, __queryWithClient. rewrite queryWithClient_run.
  cbn [snd]. rewrite !calls_of_app.
  by rewrite calls_of_before_statement, calls_of_after_statement, app_nil_r.
Qed.

(** X10.  [getClient] asks the pool once and hands the leased client
    over without releasing it; a failure of the pool is passed on.
    Statements the caller then runs on the client reach the driver in the
    order they are issued, and the library never releases the client nor
    asks for another. *)
Theorem client_scoped_statements_in_order
    (pool_connect : PoolId → World → Promise Client)
    (driver : Client → string → list Value → World → DriverReply)
    (this : Connection) (pool : PoolId) (c : Client)
    (statements : list (string * option (list Value))) (w : World) :
  __pool this = Some pool →
  getClient pool_connect this w
  = (Normal (pool_connect pool (w ++ [PoolConnect pool])), w ++ [PoolConnect pool])
  ∧ calls_of (run_on_client pool_connect driver this c statements w)
    = calls_of w ++ (statement_event c <$> statements).
Proof.
  intros Hpool. split.
  - unfold getClient, __DI_getClient, connect, bind, emit. rewrite Hpool. cbn.
    by destruct (pool_connect pool (w ++ [PoolConnect pool])).
  - revert w. induction statements as [|[queryString args] rest IH]; intros w.
    + by rewrite app_nil_r.
    + cbn [run_on_client]. rewrite IH, query_with_client_calls.
      rewrite <- app_assoc. reflexivity.
Qed.

Lemma client_scoped_statements_in_order_witness :
  __pool sample_connection = Some 0
  ∧ getClient sample_pool sample_connection []
    = (Normal (sample_pool 0 ([] ++ [PoolConnect 0])), [] ++ [PoolConnect 0])
  ∧ calls_of (run_on_client sample_pool rollback_failing_driver sample_connection 7
                [("BEGIN", None); ("UPDATE crm SET name = $1", Some [VStr "x"]);
                 ("ROLLBACK", None)] [PoolConnect 0])
    = calls_of [PoolConnect 0]
      ++ (statement_event 7 <$>
            [("BEGIN", None); ("UPDATE crm SET name = $1", Some [VStr "x"]);
             ("ROLLBACK", None)]).
Proof.
  split; [reflexivity|].
  split.
  - apply (proj1 (client_scoped_statements_in_order sample_pool rollback_failing_driver
                    sample_connection 0 7 [] [] eq_refl)).
  - apply (proj2 (client_scoped_statements_in_order sample_pool rollback_failing_driver
                    sample_connection 0 7
                    [("BEGIN", None); ("UPDATE crm SET name = $1", Some [VStr "x"]);
                     ("ROLLBACK", None)] [PoolConnect 0] eq_refl)).
Defined.

(** ** Derived operations *)

(** X12.  On a compiled query whose text is missing or empty,
    [squelQueryReturningMany] resolves to [[]] and
    [squelQueryReturningOne] to [{}], and neither touches the pool, a
    client or the console. *)
Theorem squelQueryReturning_empty_text
    (pool_connect : PoolId → World → Promise Client)
    (driver : Client → string → list Value → World → DriverReply)
    (this : Connection) (q : SquelQuery) (client : option Client) (w : World) :
  text_is_empty q →
  squelQueryReturningMany pool_connect driver this q client w
  = (Normal (Resolved (VArr [])), w)
  ∧ squelQueryReturningOne pool_connect driver this q client w
    = (Normal (Resolved (VObj [])), w).
Proof.
  intros Hempty.
  assert (Hmany : squelQueryReturningMany pool_connect driver this q client w
                  = (Normal (Resolved (VArr [])), w)).
  { unfold squelQueryReturningMany, squelQuery, __DI_squelQuery, bind.
    destruct Hempty as [-> | ->]; reflexivity. }
  split; [exact Hmany|].
  unfold squelQueryReturningOne, bind. rewrite Hmany. reflexivity.
Qed.

Lemma squelQueryReturning_empty_text_witness :
  text_is_empty {| text := None; values := Some [VNum 1] |}
  ∧ squelQueryReturningMany sample_pool rejecting_driver sample_connection
      {| text := None; values := Some [VNum 1] |} None []
    = (Normal (Resolved (VArr [])), [])
  ∧ squelQueryReturningOne sample_pool rejecting_driver sample_connection
      {| text := None; values := Some [VNum 1] |} None []
    = (Normal (Resolved (VObj [])), []).
Proof.
  split; [by left|].
  apply (squelQueryReturning_empty_text sample_pool rejecting_driver sample_connection
           {| text := None; values := Some [VNum 1] |} None []).
  by left.
Defined.

(** ** Transactions *)

(** X13.  [beginTransaction] and [commitTransaction] send exactly one
    statement, [BEGIN] or [COMMIT], to the client and settle as the driver
    answers: a failure is passed on as a rejection and the client is not
    released. *)
Theorem begin_commit_keep_lease
    (driver : Client → string → list Value → World → DriverReply)
    (c : Client) (w : World) :
  beginTransaction driver c w
  = (Normal (settles_as (driver c "BEGIN" [] (w ++ [ClientQuery c "BEGIN" []]))),
     w ++ [ClientQuery c "BEGIN" []])
  ∧ commitTransaction driver c w
    = (Normal (settles_as (driver c "COMMIT" [] (w ++ [ClientQuery c "COMMIT" []]))),
       w ++ [ClientQuery c "COMMIT" []]).
Proof.
  unfold beginTransaction, commitTransaction, __makeClientQueryPromise, new_Promise,
    settle, bind, emit. cbn.
  split; case_driver_reply driver; reflexivity.
Qed.

(** ** The steps of the service runner *)

(** Uses what is known of a step: the equation of a supplied function is
    rewritten with, that of a substituted default is solved. *)
Ltac use_step H :=
  lazymatch type of H with
  | (Normal _, _) = _ => injection H as <- <-
  | _ => rewrite H
  end.

(** The run of the pipeline when every step before execution completes. *)
Lemma runBasicService_run
    (config : runBasicServiceConfig)
    (fnOne fnMany : SquelQuery → option Client → M World (Promise Value))
    (fnConvert : option (Value → list string → Value))
    (w w1 w2 w3 w4 : World) (codes : list string) (req' v : Value) (q : SquelQuery) :
  fnValidate config (req config) [] w = (Normal (true, codes), w1) →
  sanitize_step config w1 = (Normal req', w2) →
  db_validate_step config req' w2 = (Normal (Resolved v), w3) →
  fnMakeQuery config (userData config) req' w3 = (Normal q, w4) →
  (oneOrMany config = VStr "one" →
     __DI_runBasicService config fnOne fnMany fnConvert ([], w)
     = let '(r, w5) := settle (fnOne q (service_client config)) w4 in
       (r, (calls_before_query config req'
            ++ [CallMakeQuery (userData config) req';
                CallQueryOne q (service_client config)], w5)))
  ∧ (oneOrMany config = VStr "many" →
       __DI_runBasicService config fnOne fnMany fnConvert ([], w)
       = let '(r, w5) := settle (fnMany q (service_client config)) w4 in
         (r, (calls_before_query config req'
              ++ [CallMakeQuery (userData config) req';
                  CallQueryMany q (service_client config)], w5))).
Proof.
  intros Hval Hsan Hdb Hmk.
  unfold sanitize_step in Hsan. unfold db_validate_step in Hdb.
  unfold calls_before_query.
  split; intros Hmode; unfold __DI_runBasicService; rewrite Hmode;
    fold (service_client config);
    cbn [is_string_literal String.eqb Ascii.eqb Bool.eqb];
    unfold invoke, note, lift, bind, then_, settle, value, ret, throw; cbn;
    rewrite Hval; cbn;
    destruct (fnSanitizeRequest config) as [fs|]; cbn; use_step Hsan; cbn;
    destruct (fnDbValidate config) as [fd|]; cbn; use_step Hdb; cbn;
    rewrite Hmk; cbn;
    match goal with
    | |- context [fnOne ?a ?b ?x] => destruct (fnOne a b x) as [[?|?] ?]
    | |- context [fnMany ?a ?b ?x] => destruct (fnMany a b x) as [[?|?] ?]
    end; reflexivity.
Qed.

(** X14.  When validation passes, sanitization returns, database
    validation resolves and the query is built, the runner has invoked the
    injected functions in this order: validator, sanitizer (if supplied),
    database validation (if supplied), query builder, and then, once, the
    execution function the mode selects.  The sanitized request is what
    database validation and the query builder receive, [config.client] is
    preferred to [config.configWithDone.client], and the outcome is that of
    the execution function. *)
Theorem runBasicService_steps_in_order
    (config : runBasicServiceConfig)
    (fnOne fnMany : SquelQuery → option Client → M World (Promise Value))
    (fnConvert : option (Value → list string → Value))
    (w w1 w2 w3 w4 : World) (codes : list string) (req' v : Value) (q : SquelQuery) :
  fnValidate config (req config) [] w = (Normal (true, codes), w1) →
  sanitize_step config w1 = (Normal req', w2) →
  db_validate_step config req' w2 = (Normal (Resolved v), w3) →
  fnMakeQuery config (userData config) req' w3 = (Normal q, w4) →
  (oneOrMany config = VStr "one" →
     __DI_runBasicService config fnOne fnMany fnConvert ([], w)
     = let '(r, w5) := settle (fnOne q (service_client config)) w4 in
       (r, (calls_before_query config req'
            ++ [CallMakeQuery (userData config) req';
                CallQueryOne q (service_client config)], w5)))
  ∧ (oneOrMany config = VStr "many" →
       __DI_runBasicService config fnOne fnMany fnConvert ([], w)
       = let '(r, w5) := settle (fnMany q (service_client config)) w4 in
         (r, (calls_before_query config req'
              ++ [CallMakeQuery (userData config) req';
                  CallQueryMany q (service_client config)], w5))).
Proof. apply runBasicService_run. Qed.

Lemma runBasicService_steps_in_order_witness :
  fnValidate (full_service "many" (Resolved VNull)) (req (full_service "many" (Resolved VNull)))
    [] [] = (Normal (true, []), [])
  ∧ sanitize_step (full_service "many" (Resolved VNull)) []
    = (Normal (VObj [("id", VNum 123)]), [])
  ∧ db_validate_step (full_service "many" (Resolved VNull)) (VObj [("id", VNum 123)]) []
    = (Normal (Resolved VNull), [])
  ∧ fnMakeQuery (full_service "many" (Resolved VNull))
      (userData (full_service "many" (Resolved VNull))) (VObj [("id", VNum 123)]) []
    = (Normal select_by_id, [])
  ∧ oneOrMany (full_service "many" (Resolved VNull)) = VStr "many"
  ∧ __DI_runBasicService (full_service "many" (Resolved VNull)) resolve_true resolve_true
      None ([], [])
    = (Normal (Resolved (VBool true)),
       ([CallValidate (VObj [("id", VNum 123); ("extra", VStr "x")]) [];
         CallSanitizeRequest (VObj [("id", VNum 123); ("extra", VStr "x")]);
         CallDbValidate (VObj [("userId", VNum 47)]) (VObj [("id", VNum 123)]) (Some 7);
         CallMakeQuery (VObj [("userId", VNum 47)]) (VObj [("id", VNum 123)]);
         CallQueryMany select_by_id (Some 7)], [])).
Proof.
  do 5 (split; [reflexivity|]).
  apply (proj2 (runBasicService_steps_in_order (full_service "many" (Resolved VNull))
                  resolve_true resolve_true None [] [] [] [] [] []
                  (VObj [("id", VNum 123)]) VNull select_by_id
                  eq_refl eq_refl eq_refl eq_refl) eq_refl).
Defined.

(** X15.  When database validation rejects, the runner rejects with the
    same error; the query builder and the execution functions are not
    invoked. *)
Theorem runBasicService_db_validation_rejects
    (config : runBasicServiceConfig)
    (fnOne fnMany : SquelQuery → option Client → M World (Promise Value))
    (fnConvert : option (Value → list string → Value))
    (w w1 w2 w3 : World) (codes : list string) (req' : Value) (err : Error) :
  mode_recognised config = true →
  fnValidate config (req config) [] w = (Normal (true, codes), w1) →
  sanitize_step config w1 = (Normal req', w2) →
  db_validate_step config req' w2 = (Normal (Rejected err), w3) →
  __DI_runBasicService config fnOne fnMany fnConvert ([], w)
  = (Normal (Rejected err), (calls_before_query config req', w3))
  ∧ invocations is_make_query (calls_before_query config req') = 0
  ∧ invocations is_query_one (calls_before_query config req') = 0
  ∧ invocations is_query_many (calls_before_query config req') = 0.
Proof.
  intros Hmode Hval Hsan Hdb.
  unfold sanitize_step in Hsan. unfold db_validate_step in Hdb.
  unfold calls_before_query, mode_recognised in *.
  split.
  - unfold __DI_runBasicService. fold (service_client config).
    destruct (is_string_literal (oneOrMany config) "one");
      [|destruct (is_string_literal (oneOrMany config) "many"); [|done]];
      unfold invoke, note, lift, bind, then_, settle, value, ret, throw; cbn;
      rewrite Hval; cbn;
      destruct (fnSanitizeRequest config) as [fs|]; cbn; use_step Hsan; cbn;
      (destruct (fnDbValidate config) as [fd|]; [|discriminate Hdb]); cbn;
      rewrite Hdb; reflexivity.
  - destruct (fnSanitizeRequest config), (fnDbValidate config); done.
Qed.

Lemma runBasicService_db_validation_rejects_witness :
  mode_recognised (full_service "one" (Rejected (new_Error "NOT_OWNER"))) = true
  ∧ fnValidate (full_service "one" (Rejected (new_Error "NOT_OWNER")))
      (req (full_service "one" (Rejected (new_Error "NOT_OWNER")))) [] []
    = (Normal (true, []), [])
  ∧ sanitize_step (full_service "one" (Rejected (new_Error "NOT_OWNER"))) []
    = (Normal (VObj [("id", VNum 123)]), [])
  ∧ db_validate_step (full_service "one" (Rejected (new_Error "NOT_OWNER")))
      (VObj [("id", VNum 123)]) []
    = (Normal (Rejected (new_Error "NOT_OWNER")), [])
  ∧ __DI_runBasicService (full_service "one" (Rejected (new_Error "NOT_OWNER")))
      resolve_true resolve_true None ([], [])
    = (Normal (Rejected (new_Error "NOT_OWNER")),
       (calls_before_query (full_service "one" (Rejected (new_Error "NOT_OWNER")))
          (VObj [("id", VNum 123)]), [])).
Proof.
  do 4 (split; [reflexivity|]).
  apply (proj1 (runBasicService_db_validation_rejects
                  (full_service "one" (Rejected (new_Error "NOT_OWNER")))
                  resolve_true resolve_true None [] [] [] [] []
                  (VObj [("id", VNum 123)]) (new_Error "NOT_OWNER")
                  eq_refl eq_refl eq_refl eq_refl)).
Defined.

(** X16.  An exception raised by the validator, the sanitizer or the
    database validation escapes [runBasicService] synchronously: no
    promise is returned.  An exception raised by the query builder, which
    runs inside a promise handler, becomes a rejection with that error.
    In each case the functions invoked are exactly those up to and
    including the one that raised: no later step runs and no execution
    function is invoked. *)
Theorem runBasicService_exceptions
    (config : runBasicServiceConfig)
    (fnOne fnMany : SquelQuery → option Client → M World (Promise Value))
    (fnConvert : option (Value → list string → Value))
    (w : World) (err : Error) :
  mode_recognised config = true →
  (∀ w1, fnValidate config (req config) [] w = (Throw err, w1) →
     ∃ calls, __DI_runBasicService config fnOne fnMany fnConvert ([], w)
              = (Throw err, (calls, w1))
              ∧ calls = [CallValidate (req config) []]
              ∧ invocations is_query_one calls = 0
              ∧ invocations is_query_many calls = 0)
  ∧ (∀ w1 w2 codes,
       fnValidate config (req config) [] w = (Normal (true, codes), w1) →
       sanitize_step config w1 = (Throw err, w2) →
       ∃ calls, __DI_runBasicService config fnOne fnMany fnConvert ([], w)
                = (Throw err, (calls, w2))
                ∧ calls = [CallValidate (req config) []; CallSanitizeRequest (req config)]
                ∧ invocations is_query_one calls = 0
                ∧ invocations is_query_many calls = 0)
  ∧ (∀ w1 w2 w3 codes req',
       fnValidate config (req config) [] w = (Normal (true, codes), w1) →
       sanitize_step config w1 = (Normal req', w2) →
       db_validate_step config req' w2 = (Throw err, w3) →
       ∃ calls, __DI_runBasicService config fnOne fnMany fnConvert ([], w)
                = (Throw err, (calls, w3))
                ∧ calls = calls_before_query config req'
                ∧ invocations is_make_query calls = 0
                ∧ invocations is_query_one calls = 0
                ∧ invocations is_query_many calls = 0)
  ∧ (∀ w1 w2 w3 w4 codes req' v,
       fnValidate config (req config) [] w = (Normal (true, codes), w1) →
       sanitize_step config w1 = (Normal req', w2) →
       db_validate_step config req' w2 = (Normal (Resolved v), w3) →
       fnMakeQuery config (userData config) req' w3 = (Throw err, w4) →
       ∃ calls, __DI_runBasicService config fnOne fnMany fnConvert ([], w)
                = (Normal (Rejected err), (calls, w4))
                ∧ calls = calls_before_query config req'
                          ++ [CallMakeQuery (userData config) req']
                ∧ invocations is_query_one calls = 0
                ∧ invocations is_query_many calls = 0).
Proof.
  unfold mode_recognised, sanitize_step, db_validate_step, calls_before_query.
  intros Hmode.
  unfold __DI_runBasicService. fold (service_client config).
  destruct (is_string_literal (oneOrMany config) "one");
    [|destruct (is_string_literal (oneOrMany config) "many"); [|done]].
  all: unfold invoke, note, lift, bind, then_, settle, value, ret, throw; cbn.
  all: split; [|split; [|split]].
  all: try (intros w1 Hval; rewrite Hval; by eexists).
  all: try (intros w1 w2 codes Hval Hsan; rewrite Hval; cbn;
            (destruct (fnSanitizeRequest config) as [fs|]; [|discriminate Hsan]); cbn;
            rewrite Hsan; by eexists).
  all: try (intros w1 w2 w3 codes req' Hval Hsan Hdb; rewrite Hval; cbn;
            destruct (fnSanitizeRequest config) as [fs|]; cbn; use_step Hsan; cbn;
            (destruct (fnDbValidate config) as [fd|]; [|discriminate Hdb]); cbn;
            rewrite Hdb; by eexists).
  all: intros w1 w2 w3 w4 codes req' v Hval Hsan Hdb Hmk; rewrite Hval; cbn;
       destruct (fnSanitizeRequest config) as [fs|]; cbn; use_step Hsan; cbn;
       destruct (fnDbValidate config) as [fd|]; cbn; use_step Hdb; cbn;
       rewrite Hmk; cbn; by eexists.
Qed.

Lemma runBasicService_exceptions_witness :
  mode_recognised (throwing_service true) = true
  ∧ fnValidate (throwing_service true) (req (throwing_service true)) [] []
    = (Throw (new_Error "req is undefined"), [])
  ∧ (∃ calls, __DI_runBasicService (throwing_service true) resolve_true resolve_true None
                ([], [])
              = (Throw (new_Error "req is undefined"), (calls, []))
              ∧ calls = [CallValidate (req (throwing_service true)) []]
              ∧ invocations is_query_one calls = 0
              ∧ invocations is_query_many calls = 0)
  ∧ fnValidate (throwing_service false) (req (throwing_service false)) [] []
    = (Normal (true, []), [])
  ∧ fnMakeQuery (throwing_service false) (userData (throwing_service false))
      (req (throwing_service false)) []
    = (Throw (new_Error "req is undefined"), [])
  ∧ ∃ calls, __DI_runBasicService (throwing_service false) resolve_true resolve_true None
               ([], [])
             = (Normal (Rejected (new_Error "req is undefined")), (calls, []))
             ∧ calls = calls_before_query (throwing_service false)
                         (req (throwing_service false))
                       ++ [CallMakeQuery (userData (throwing_service false))
                             (req (throwing_service false))]
             ∧ invocations is_query_one calls = 0
             ∧ invocations is_query_many calls = 0.
Proof.
  split; [reflexivity|]. split; [reflexivity|].
  split.
  { apply (proj1 (runBasicService_exceptions (throwing_service true)
                    resolve_true resolve_true None [] (new_Error "req is undefined")
                    eq_refl) [] eq_refl). }
  split; [reflexivity|]. split; [reflexivity|].
  apply (proj2 (proj2 (proj2 (runBasicService_exceptions (throwing_service false)
                  resolve_true resolve_true None [] (new_Error "req is undefined")
                  eq_refl))) [] [] [] [] [] (req (throwing_service false)) (VObj [])
           eq_refl eq_refl eq_refl eq_refl).
Defined.

(** X17.  End to end: a one-row service without a client, whose steps
    before execution complete and whose query has a text, runs as a
    managed query.  It leases one client, sends the built statement with
    its values, releases the client once and resolves to the first row of
    the result (or [{}]); a failed statement rejects with the driver's
    error, the client being released all the same. *)
Theorem runBasicService_managed_one
    (pool_connect : PoolId → World → Promise Client)
    (driver : Client → string → list Value → World → DriverReply)
    (this : Connection) (config : runBasicServiceConfig)
    (w w1 w2 w3 w4 : World) (codes : list string) (req' v : Value) (q : SquelQuery)
    (t : string) (pool : PoolId) (c : Client) :
  oneOrMany config = VStr "one" →
  fnValidate config (req config) [] w = (Normal (true, codes), w1) →
  sanitize_step config w1 = (Normal req', w2) →
  db_validate_step config req' w2 = (Normal (Resolved v), w3) →
  fnMakeQuery config (userData config) req' w3 = (Normal q, w4) →
  service_client config = None →
  text q = Some t → t ≠ EmptyString →
  __pool this = Some pool →
  pool_connect pool (w4 ++ [PoolConnect pool]) = Resolved c →
  ∃ (before after : World),
    runBasicService pool_connect driver this config w
    = (Normal
         match driver c t (default [] (values q)) (w4 ++ before) with
         | ReplyResult result =>
             Resolved (turnRowsIntoSingleResult (turnQueryResultIntoRows result))
         | ReplyError e | RaisedInCall e => Rejected e
         end,
       w4 ++ before ++ ClientRelease c :: after)
    ∧ calls_of before = [PoolConnect pool; ClientQuery c t (default [] (values q))]
    ∧ calls_of after = [].
Proof.
  intros Hmode Hval Hsan Hdb Hmk Hclient Htext Hne Hpool Hconnect.
  unfold runBasicService, with_local.
  rewrite (proj1 (runBasicService_run config _ _ None w w1 w2 w3 w4 codes req' v q
                    Hval Hsan Hdb Hmk) Hmode).
  rewrite Hclient.
  unfold settle, squelQueryReturningOne, squelQueryReturningMany, squelQuery,
    __DI_squelQuery, bind. rewrite Htext.
  destruct (String.eqb t EmptyString) eqn:Et; [by apply String.eqb_eq in Et|].
  unfold query, __DI_query, __simpleQuery. rewrite Hpool.
  set (args := match values q with None => [] | Some args => args end).
  assert (Hargs : default [] (values q) = args) by (subst args; by destruct (values q)).
  rewrite Hargs.
  rewrite (simpleQuery_run pool_connect driver pool (DatabaseConnection.config (__config this)) t
             (Some args) w4 c Hconnect).
  cbv zeta. cbn [default].
  set (before := log_before_release pool c
                   (verbose (DatabaseConnection.config (__config this))) t (Some args)).
  exists before,
    (log_after_release (verbose (DatabaseConnection.config (__config this)))
       (driver c t args (w4 ++ before))).
  split; [|split].
  - change (id args) with args. destruct (driver c t args (w4 ++ before)); reflexivity.
  - subst before. unfold log_before_release. by destruct (verbose _).
  - unfold log_after_release. destruct (verbose _); [|reflexivity].
    destruct (driver c t args (w4 ++ before)); reflexivity.
Qed.

Lemma runBasicService_managed_one_witness :
  oneOrMany (sample_service true "one") = VStr "one"
  ∧ fnValidate (sample_service true "one") (req (sample_service true "one")) [] []
    = (Normal (true, []), [])
  ∧ sanitize_step (sample_service true "one") []
    = (Normal (req (sample_service true "one")), [])
  ∧ db_validate_step (sample_service true "one") (req (sample_service true "one")) []
    = (Normal (Resolved (VObj [])), [])
  ∧ fnMakeQuery (sample_service true "one") (userData (sample_service true "one"))
      (req (sample_service true "one")) []
    = (Normal select_by_id, [])
  ∧ service_client (sample_service true "one") = None
  ∧ text select_by_id = Some "SELECT * FROM crm WHERE id = $1"
  ∧ "SELECT * FROM crm WHERE id = $1" ≠ EmptyString
  ∧ __pool sample_connection = Some 0
  ∧ sample_pool 0 ([] ++ [PoolConnect 0]) = Resolved 7
  ∧ ∃ (before after : World),
      runBasicService sample_pool answering_driver sample_connection
        (sample_service true "one") []
      = (Normal
           match answering_driver 7 "SELECT * FROM crm WHERE id = $1"
                   (default [] (values select_by_id)) ([] ++ before) with
           | ReplyResult result =>
               Resolved (turnRowsIntoSingleResult (turnQueryResultIntoRows result))
           | ReplyError e | RaisedInCall e => Rejected e
           end,
         [] ++ before ++ ClientRelease 7 :: after)
      ∧ calls_of before
        = [PoolConnect 0;
           ClientQuery 7 "SELECT * FROM crm WHERE id = $1"
             (default [] (values select_by_id))]
      ∧ calls_of after = [].
Proof.
  do 7 (split; [reflexivity|]). split; [discriminate|]. do 2 (split; [reflexivity|]).
  apply (runBasicService_managed_one sample_pool answering_driver sample_connection
           (sample_service true "one") [] [] [] [] [] [] (req (sample_service true "one"))
           (VObj []) select_by_id "SELECT * FROM crm WHERE id = $1" 0 7);
    (reflexivity || discriminate).
Defined.

(** ** More on the registry *)

(** X18.  When no override is given and the configuration file that the
    mode selects cannot be loaded, a lookup of a name that is not
    registered throws an error whose message names the file, as
    [path.join] built its path; it creates no pool and registers nothing. *)
Theorem getConnection_config_not_found (cwd : string)
    (path_join : list string → string)
    (require : string → option ConnectionConfig)
    (name : string) (mode : option string) (r : Registry) :
  method_intact r →
  __connections r !! name = None →
  require (config_filename cwd path_join name (effective_mode mode)) = None →
  getConnection cwd path_join require name mode None r
  = (Throw (new_Error ("Configuration file not found: "
                       +:+ config_filename cwd path_join name (effective_mode mode))), r).
Proof. intros Hmethod Hnew Hfile. by apply getConnection_not_found. Qed.

Lemma getConnection_config_not_found_witness :
  method_intact sample_registry
  ∧ __connections sample_registry !! "reports" = None
  ∧ sample_require
      (config_filename "/srv/app" sample_path_join "reports"
         (effective_mode (Some "standalone")))
    = None
  ∧ getConnection "/srv/app" sample_path_join sample_require "reports"
      (Some "standalone") None sample_registry
    = (Throw (new_Error "Configuration file not found: /srv/app/config/reports.js"),
       sample_registry).
Proof.
  split; [reflexivity|]. split; [reflexivity|]. split; [reflexivity|].
  apply (getConnection_config_not_found "/srv/app" sample_path_join sample_require
           "reports" (Some "standalone") sample_registry); reflexivity.
Defined.

(** What every lookup keeps: the entries are sound, their pools are
    apart, and [__proto__] is not an own property. *)
Lemma getConnection_keeps_invariant (cwd : string)
    (path_join : list string → string)
    (require : string → option ConnectionConfig)
    (name : string) (mode : option string) (configOverride : option ConnectionConfig)
    (r : Registry) :
  registry_sound r ∧ pools_apart r ∧ __connections r !! "__proto__" = None →
  let r' := (getConnection cwd path_join require name mode configOverride r).2 in
  registry_sound r' ∧ pools_apart r' ∧ __connections r' !! "__proto__" = None.
Proof.
  intros (Hsound & Hapart & Hproto) r'.
  destruct (getConnection_registry cwd path_join require name mode configOverride r Hproto)
    as [Hsame | (cfg & Hnew & Hpools & Hown)]; fold r' in Hsame || fold r' in Hpools, Hown.
  { by rewrite Hsame. }
  assert (Hold : ∀ n e, __connections r !! n = Some e →
                        entry_pool e ≠ Some (List.length (pools r))).
  { intros n e He Hp. destruct (Hsound n e He) as (dbc & i & -> & _ & Hpool & Hi).
    cbn in Hp. rewrite Hpool in Hp. injection Hp as ->.
    apply lookup_lt_Some in Hi. lia. }
  assert (Hgrow : ∀ n e, __connections r !! n = Some e →
                         ∃ (dbc : Connection) (i : PoolId),
                           e = Registered dbc ∧ __name dbc = n ∧ __pool dbc = Some i
                           ∧ pools r' !! i = Some (connection (__config dbc))).
  { intros n e He. destruct (Hsound n e He) as (dbc & i & -> & Hn & Hp & Hi).
    exists dbc, i. repeat split; try done.
    rewrite Hpools, lookup_app_l; [done | by eapply lookup_lt_Some]. }
  destruct Hown as [[Hne Hown] | [-> Hown]].
  - split; [|split].
    + intros n e. rewrite Hown.
      destruct (decide (n = name)) as [->|Hn].
      * rewrite lookup_insert_eq. intros [= <-].
        eexists _, _. repeat split. by rewrite Hpools, list_lookup_middle.
      * rewrite lookup_insert_ne by done. apply Hgrow.
    + intros n1 n2 e1 e2 i. rewrite Hown.
      destruct (decide (n1 = name)) as [->|Hne1];
        destruct (decide (n2 = name)) as [->|Hne2]; try done.
      * rewrite lookup_insert_eq, lookup_insert_ne by done.
        intros [= <-] He2 Hp1 Hp2. cbn in Hp1. injection Hp1 as <-.
        by destruct (Hold n2 e2 He2).
      * rewrite lookup_insert_eq, lookup_insert_ne by done.
        intros He1 [= <-] Hp1 Hp2. cbn in Hp2. injection Hp2 as <-.
        by destruct (Hold n1 e1 He1).
      * rewrite !lookup_insert_ne by done. apply Hapart.
    + rewrite Hown. by rewrite lookup_insert_ne.
  - split; [|split].
    + intros n e. rewrite Hown. apply Hgrow.
    + intros n1 n2 e1 e2 i. rewrite Hown. apply Hapart.
    + by rewrite Hown.
Qed.

Lemma run_lookups_invariant (cwd : string) (path_join : list string → string)
    (require : string → option ConnectionConfig) (calls : list Lookup) (r : Registry) :
  registry_sound r ∧ pools_apart r ∧ __connections r !! "__proto__" = None →
  registry_sound (run_lookups cwd path_join require calls r)
  ∧ pools_apart (run_lookups cwd path_join require calls r)
  ∧ __connections (run_lookups cwd path_join require calls r) !! "__proto__" = None.
Proof.
  revert r. induction calls as [|c calls IH]; intros r Hinv; [done|].
  simpl. apply IH. by apply getConnection_keeps_invariant.
Qed.

(** As many pools as registered names, as long as no lookup names
    [__proto__]. *)
Lemma run_lookups_pools (cwd : string) (path_join : list string → string)
    (require : string → option ConnectionConfig) (calls : list Lookup) (r : Registry) :
  Forall (fun c => lookup_name c ≠ "__proto__") calls →
  __connections r !! "__proto__" = None →
  size (__connections r) = List.length (pools r) →
  size (__connections (run_lookups cwd path_join require calls r))
  = List.length (pools (run_lookups cwd path_join require calls r)).
Proof.
  revert r. induction calls as [|c calls IH]; intros r Hnames Hproto Hsize; [done|].
  inversion Hnames as [|? ? Hname Hrest]; subst.
  simpl. pose proof (getConnection_registry cwd path_join require (lookup_name c)
                       (lookup_mode c) (lookup_override c) r Hproto) as Hcases.
  cbv zeta in Hcases.
  destruct Hcases as [-> | (cfg & Hnew & Hpools & [[_ Hown] | [Hp _]])];
    [by apply IH | | done].
  apply IH; [done | |].
  - rewrite Hown. by rewrite lookup_insert_ne.
  - rewrite Hown, Hpools, map_size_insert_None by done.
    rewrite length_app. simpl. lia.
Qed.

(** X19.  After any sequence of lookups, every registered name holds a
    connection object that carries that name and its own started pool,
    created from the connection details of its configuration; two
    different names never share a pool.  As long as no lookup names
    [__proto__], there are as many pools as registered names. *)
Theorem registry_one_pool_per_name (cwd : string) (path_join : list string → string)
    (require : string → option ConnectionConfig) (calls : list Lookup) :
  registry_sound (run_lookups cwd path_join require calls empty_registry)
  ∧ pools_apart (run_lookups cwd path_join require calls empty_registry)
  ∧ (Forall (fun c => lookup_name c ≠ "__proto__") calls →
       size (__connections (run_lookups cwd path_join require calls empty_registry))
       = List.length (pools (run_lookups cwd path_join require calls empty_registry))).
Proof.
  assert (Hinit : registry_sound empty_registry ∧ pools_apart empty_registry
                  ∧ __connections empty_registry !! "__proto__" = None).
  { split; [|split]; [| |done].
    - intros n e He. cbn in He. by rewrite lookup_empty in He.
    - intros n1 n2 e1 e2 i He. cbn in He. by rewrite lookup_empty in He. }
  destruct (run_lookups_invariant cwd path_join require calls empty_registry Hinit)
    as (Hsound & Hapart & _).
  split; [exact Hsound|]. split; [exact Hapart|].
  intros Hnames. by apply run_lookups_pools.
Qed.

Lemma registry_one_pool_per_name_witness :
  Forall (fun c => lookup_name c ≠ "__proto__")
    [ {| lookup_name := "main"; lookup_mode := None; lookup_override := None |};
      {| lookup_name := "main"; lookup_mode := Some "standalone";
         lookup_override := Some verbose_config |} ]
  ∧ size (__connections
            (run_lookups "/srv/app" sample_path_join sample_require
               [ {| lookup_name := "main"; lookup_mode := None; lookup_override := None |};
                 {| lookup_name := "main"; lookup_mode := Some "standalone";
                    lookup_override := Some verbose_config |} ]
               empty_registry))
    = List.length
        (pools
           (run_lookups "/srv/app" sample_path_join sample_require
              [ {| lookup_name := "main"; lookup_mode := None; lookup_override := None |};
                {| lookup_name := "main"; lookup_mode := Some "standalone";
                   lookup_override := Some verbose_config |} ]
              empty_registry)).
Proof.
  assert (Hnames : Forall (fun c => lookup_name c ≠ "__proto__")
            [ {| lookup_name := "main"; lookup_mode := None; lookup_override := None |};
              {| lookup_name := "main"; lookup_mode := Some "standalone";
                 lookup_override := Some verbose_config |} ])
    by (repeat constructor; discriminate).
  split; [exact Hnames|].
  exact (proj2 (proj2 (registry_one_pool_per_name "/srv/app" sample_path_join
                         sample_require _)) Hnames).
Defined.

(** X21.  In a registry whose [hasOwnProperty] method is intact, the
    first lookup of a name other than [__proto__] and [hasOwnProperty]
    resolves its configuration (the override if given, else the file
    selected by the mode), creates exactly one pool and registers the
    connection; every later lookup of that name returns the registered
    connection, whatever mode or override it is given, and changes neither
    the registry nor the pools. *)
Theorem getConnection_caches_ordinary_names (cwd : string)
    (path_join : list string → string)
    (require : string → option ConnectionConfig)
    (name : string) (mode : option string) (configOverride : option ConnectionConfig)
    (r : Registry) (cfg : ConnectionConfig) :
  ordinary_name name →
  method_intact r →
  __connections r !! name = None →
  resolve_config cwd path_join require name mode configOverride = Some cfg →
  ∃ (dbc : Connection) (r1 : Registry),
    getConnection cwd path_join require name mode configOverride r
    = (Normal (Some (Registered dbc)), r1)
    ∧ __name dbc = name ∧ __config dbc = cfg
    ∧ __pool dbc = Some (List.length (pools r))
    ∧ pools r1 = pools r ++ [connection cfg]
    ∧ __connections r1 = <[name := Registered dbc]> (__connections r)
    ∧ ∀ (mode' : option string) (configOverride' : option ConnectionConfig),
        getConnection cwd path_join require name mode' configOverride' r1
        = (Normal (Some (Registered dbc)), r1).
Proof.
  intros [Hproto Hshadow] Hmethod Hnew Hcfg.
  eexists _, _.
  split; [exact (getConnection_first _ _ _ _ _ _ _ _ Hmethod Hproto Hnew Hcfg)|].
  do 5 (split; [reflexivity|]).
  intros mode' configOverride'. apply getConnection_cached.
  - unfold method_intact. cbn. by rewrite lookup_insert_ne.
  - cbn. apply lookup_insert_eq.
Qed.

Lemma getConnection_caches_ordinary_names_witness :
  ordinary_name "main"
  ∧ method_intact empty_registry
  ∧ __connections empty_registry !! "main" = None
  ∧ resolve_config "/srv/app" sample_path_join sample_require "main" None None
    = Some sample_config
  ∧ ∃ (dbc : Connection) (r1 : Registry),
      getConnection "/srv/app" sample_path_join sample_require "main" None None
        empty_registry
      = (Normal (Some (Registered dbc)), r1)
      ∧ __name dbc = "main" ∧ __config dbc = sample_config
      ∧ __pool dbc = Some (List.length (pools empty_registry))
      ∧ pools r1 = pools empty_registry ++ [connection sample_config]
      ∧ __connections r1 = <["main" := Registered dbc]> (__connections empty_registry)
      ∧ ∀ (mode' : option string) (configOverride' : option ConnectionConfig),
          getConnection "/srv/app" sample_path_join sample_require "main"
            mode' configOverride' r1
          = (Normal (Some (Registered dbc)), r1).
Proof.
  assert (Hname : ordinary_name "main") by (split; discriminate).
  split; [exact Hname|]. split; [reflexivity|]. split; [reflexivity|].
  split; [reflexivity|].
  apply (getConnection_caches_ordinary_names "/srv/app" sample_path_join sample_require
           "main" None None empty_registry sample_config Hname); reflexivity.
Defined.

(** ** The condition generator on plain criteria *)

(** X22.  For a criteria object that is not array-like, that is, whose
    [length] is not a non-negative integer, the k-th string-valued entry
    (counting from 0) yields the condition on the SQL-style conversion of
    its key with placeholder number [args.length + k + 1]; the arguments
    appended are exactly the values of the string-valued entries, and the
    conditions are as many. *)
Theorem genWhereLikePrefixConditions_plain_criteria
    (criteria : list (string * Value)) (args : option loc)
    (h : Store) (xs : list Value) :
  array_like criteria = false →
  args_live args h xs →
  ∃ (r : LikeConditions) (h' : Store) (conds : list Value),
    genWhereLikePrefixConditions criteria args h = Some (r, h')
    ∧ h' !! conditions r = Some conds
    ∧ h' !! databaseUtil.args r = Some (xs ++ (string_entries criteria).*2)
    ∧ List.length conds = List.length (string_entries criteria)
    ∧ ∀ k field v, string_entries criteria !! k = Some (field, v) →
        ∃ col, jsName2SqlName field = Some col
               ∧ conds !! k = Some (VStr (condition_text col (List.length xs + k + 1))).
Proof.
  intros Hplain Hlive.
  destruct (genWhereLikePrefixConditions_run criteria args h xs Hlive)
    as (conds & Hrun & Hlen & Hat).
  rewrite (visits_plain criteria Hplain) in Hrun, Hlen, Hat.
  eexists _, _, conds. split; [exact Hrun|]. simpl.
  split; [apply store_lookup_fst|]. split; [apply store_lookup_snd|]. done.
Qed.

Lemma genWhereLikePrefixConditions_plain_criteria_witness :
  array_like [("zipCode5", VStr "53711"); ("length", VStr "5"); ("limit", VNum 3)] = false
  ∧ args_live (Some 0) [[VStr "already"]] [VStr "already"]
  ∧ ∃ (r : LikeConditions) (h' : Store) (conds : list Value),
      genWhereLikePrefixConditions
        [("zipCode5", VStr "53711"); ("length", VStr "5"); ("limit", VNum 3)]
        (Some 0) [[VStr "already"]]
      = Some (r, h')
      ∧ h' !! conditions r = Some conds
      ∧ h' !! databaseUtil.args r
        = Some ([VStr "already"]
                ++ (string_entries
                      [("zipCode5", VStr "53711"); ("length", VStr "5");
                       ("limit", VNum 3)]).*2)
      ∧ List.length conds
        = List.length
            (string_entries
               [("zipCode5", VStr "53711"); ("length", VStr "5"); ("limit", VNum 3)])
      ∧ ∀ k field v,
          string_entries
            [("zipCode5", VStr "53711"); ("length", VStr "5"); ("limit", VNum 3)] !! k
          = Some (field, v) →
          ∃ col, jsName2SqlName field = Some col
                 ∧ conds !! k = Some (VStr (condition_text col (1 + k + 1))).
Proof.
  split; [reflexivity|]. split; [reflexivity|].
  apply (genWhereLikePrefixConditions_plain_criteria
           [("zipCode5", VStr "53711"); ("length", VStr "5"); ("limit", VNum 3)]
           (Some 0) [[VStr "already"]] [VStr "already"]); reflexivity.
Defined.

(** ** The [verbose] option *)

Lemma calls_of_before_release (pool : PoolId) (c : Client) (debug : bool)
    (queryString : string) (args : option (list Value)) :
  calls_of (log_before_release pool c debug queryString args)
  = [PoolConnect pool; ClientQuery c queryString (default [] args)].
Proof. unfold log_before_release. by destruct debug, args. Qed.

Lemma calls_of_after_release (debug : bool) (reply : DriverReply) :
  calls_of (log_after_release debug reply) = [].
Proof. unfold log_after_release. by destruct debug, reply. Qed.

(** X20.  The [verbose] option only adds console output.  When the pool
    and the driver do not depend on what was written to the console, a
    managed query and a client-scoped query settle to the same outcome
    and make the same calls to the pool, the driver and the client,
    whatever [verbose] is set to. *)
Theorem verbose_only_adds_console_output
    (pool_connect : PoolId → World → Promise Client)
    (driver : Client → string → list Value → World → DriverReply)
    (pool : PoolId) (options1 options2 : ConfigOptions) (queryString : string)
    (args : option (list Value)) (c : Client) (w1 w2 : World) :
  pool_ignores_console pool_connect →
  driver_ignores_console driver →
  calls_of w1 = calls_of w2 →
  ((__DI_simpleQuery pool_connect driver pool options1 queryString args w1).1
   = (__DI_simpleQuery pool_connect driver pool options2 queryString args w2).1
   ∧ calls_of (__DI_simpleQuery pool_connect driver pool options1 queryString args w1).2
     = calls_of (__DI_simpleQuery pool_connect driver pool options2 queryString args w2).2)
  ∧ ((__DI_queryWithClient driver options1 queryString args c w1).1
     = (__DI_queryWithClient driver options2 queryString args c w2).1
     ∧ calls_of (__DI_queryWithClient driver options1 queryString args c w1).2
       = calls_of (__DI_queryWithClient driver options2 queryString args c w2).2).
Proof.
  intros Hpool Hdriver Hw. split.
  - assert (Hconnect : pool_connect pool (w1 ++ [PoolConnect pool])
                       = pool_connect pool (w2 ++ [PoolConnect pool])).
    { rewrite (Hpool pool (w1 ++ _)), (Hpool pool (w2 ++ _)), !calls_of_app.
      by rewrite Hw. }
    destruct (pool_connect pool (w1 ++ [PoolConnect pool])) as [c'|err] eqn:H1;
      symmetry in Hconnect.
    + rewrite (simpleQuery_run _ driver _ options1 queryString args _ _ H1).
      rewrite (simpleQuery_run _ driver _ options2 queryString args _ _ Hconnect).
      cbv zeta. cbn [fst snd].
      assert (Hreply :
        driver c' queryString (default [] args)
          (w1 ++ log_before_release pool c' (verbose options1) queryString args)
        = driver c' queryString (default [] args)
            (w2 ++ log_before_release pool c' (verbose options2) queryString args)).
      { rewrite (Hdriver _ _ _ (w1 ++ _)), (Hdriver _ _ _ (w2 ++ _)).
        by rewrite !calls_of_app, !calls_of_before_release, Hw. }
      rewrite Hreply. split; [reflexivity|].
      rewrite !calls_of_app, !calls_of_before_release, Hw.
      change (ClientRelease c' :: ?l) with ([ClientRelease c'] ++ l).
      by rewrite !calls_of_app, !calls_of_after_release.
    + destruct (simpleQuery_no_client _ driver _ options1 queryString args _ _ H1)
        as (w1' & -> & Hw1').
      destruct (simpleQuery_no_client _ driver _ options2 queryString args _ _ Hconnect)
        as (w2' & -> & Hw2').
      cbn [fst snd]. split; [reflexivity|].
      by rewrite !calls_of_app, Hw1', Hw2', Hw.
  - rewrite !queryWithClient_run. cbv zeta. cbn [fst snd].
    assert (Hreply :
      driver c queryString (default [] args)
        (w1 ++ log_before_statement (verbose options1) queryString args
            ++ [ClientQuery c queryString (default [] args)])
      = driver c queryString (default [] args)
          (w2 ++ log_before_statement (verbose options2) queryString args
              ++ [ClientQuery c queryString (default [] args)])).
    { rewrite (Hdriver _ _ _ (w1 ++ _)), (Hdriver _ _ _ (w2 ++ _)).
      by rewrite !calls_of_app, !calls_of_before_statement, Hw. }
    rewrite Hreply. split; [reflexivity|].
    by rewrite !calls_of_app, !calls_of_before_statement, !calls_of_after_statement, Hw.
Qed.

Lemma verbose_only_adds_console_output_witness :
  pool_ignores_console sample_pool
  ∧ driver_ignores_console answering_driver
  ∧ calls_of [ConsoleLog [VStr "starting"]] = calls_of []
  ∧ ((__DI_simpleQuery sample_pool answering_driver 0 (config verbose_config)
        "SELECT 1" None [ConsoleLog [VStr "starting"]]).1
     = (__DI_simpleQuery sample_pool answering_driver 0 (config sample_config)
          "SELECT 1" None []).1
     ∧ calls_of (__DI_simpleQuery sample_pool answering_driver 0 (config verbose_config)
                   "SELECT 1" None [ConsoleLog [VStr "starting"]]).2
       = calls_of (__DI_simpleQuery sample_pool answering_driver 0 (config sample_config)
                     "SELECT 1" None []).2)
  ∧ ((__DI_queryWithClient answering_driver (config verbose_config)
        "SELECT 1" None 7 [ConsoleLog [VStr "starting"]]).1
     = (__DI_queryWithClient answering_driver (config sample_config)
          "SELECT 1" None 7 []).1
     ∧ calls_of (__DI_queryWithClient answering_driver (config verbose_config)
                   "SELECT 1" None 7 [ConsoleLog [VStr "starting"]]).2
       = calls_of (__DI_queryWithClient answering_driver (config sample_config)
                     "SELECT 1" None 7 []).2).
Proof.
  split; [intros ? ?; reflexivity|]. split; [intros ? ? ? ?; reflexivity|].
  split; [reflexivity|].
  apply (verbose_only_adds_console_output sample_pool answering_driver 0
           (config verbose_config) (config sample_config) "SELECT 1" None 7
           [ConsoleLog [VStr "starting"]] []);
    [intros ? ?; reflexivity | intros ? ? ? ?; reflexivity | reflexivity].
Defined.
